(** * Minesweeper knowledge base (src/minesweeper.py)

    A shallow embedding of the classes [Sentence] and [MinesweeperAI] and
    the properties of the inference engine that the specification states.

    Python sets of cells are [gset Cell]; Python integers are [Z]; the
    list [self.knowledge] of mutable [Sentence] objects is a [list
    Sentence] whose entries are rewritten in place by the marking
    operations (every entry of the list is a distinct object, so updating
    position by position is what the in-place mutation does). *)

From Stdlib Require Import ZArith Lia.
From stdpp Require Import base numbers gmap sets fin_sets list.

Local Open Scope Z_scope.

(** ** Cells and sentences *)

(** A cell is the Python tuple [(i, j)]. *)
Abbreviation Cell := (Z * Z)%type.

(** [len(s)] of a Python set, as a Python integer. *)
Definition len (X : gset Cell) : Z := Z.of_nat (size X).

Module Sentence.

(** class Sentence: [self.cells], [self.count]. *)
Record t : Type := Make { cells : gset Cell; count : Z }.

(** [__eq__]: same cells and same count. *)
#[global] Instance eq_dec : EqDecision t.
Proof. solve_decision. Defined.

(** [known_mines]: [mine_set = self.cells; return mine_set]. *)
Definition known_mines (s : t) : gset Cell := cells s.

(** [known_safes]: [safe_set = self.cells; return safe_set]. *)
Definition known_safes (s : t) : gset Cell := cells s.

(** [mark_mine]:
    {[
      mine_cell = {cell}
      if self.cells == mine_cell:   self.count = 1
      elif self.cells > mine_cell:  self.cells -= mine_cell; self.count -= 1
    ]} *)
Definition mark_mine (cell : Cell) (s : t) : t :=
  let mine_cell : gset Cell := {[ cell ]} in
  if decide (cells s = mine_cell) then Make (cells s) 1
  else if decide (mine_cell ⊂ cells s)
       then Make (cells s ∖ mine_cell) (count s - 1)
       else s.

(** [mark_safe]:
    {[
      safe_cell = {cell}
      if self.cells == safe_cell:   self.count = 0
      elif self.cells > safe_cell:  self.cells -= safe_cell
    ]} *)
Definition mark_safe (cell : Cell) (s : t) : t :=
  let safe_cell : gset Cell := {[ cell ]} in
  if decide (cells s = safe_cell) then Make (cells s) 0
  else if decide (safe_cell ⊂ cells s)
       then Make (cells s ∖ safe_cell) (count s)
       else s.

End Sentence.

Abbreviation Sentence := Sentence.t.

(** ** Iteration order of Python sets

    [for cell in some_set] visits the members in an order that depends on
    hashing and on the history of the set object.  The model takes the
    order from an [Order]: one enumeration per place of [add_knowledge]
    where a set is iterated, and one for the set of index tuples of the
    final reduction.  The theorems below hold for every valid order, and
    each call of [add_knowledge] may come with an order of its own. *)

Inductive Site : Type :=
  | AtNeighbors               (* [for cell in neighbor_cells] *)
  | AtPair (i j : nat).       (* [for cell in new_set], pair of positions *)

Record Order : Type := MkOrder {
  iter_cells : Site → gset Cell → list Cell;
  iter_index : list (list nat) → list (list nat)
}.

(** An order is valid when it enumerates exactly the members, once each. *)
Definition valid_order (o : Order) : Prop :=
  (∀ site X, iter_cells o site X ≡ₚ elements X) ∧
  (∀ l, iter_index o l ≡ₚ l).

(** The enumeration stdpp computes; used to run the model. *)
Definition canonical : Order :=
  MkOrder (λ _ X, elements X) (λ l, l).

(** ** The knowledge base *)

Module MinesweeperAI.

(** class MinesweeperAI: [height], [width], [moves_made], [mines],
    [safes], [knowledge]. *)
Record t : Type := Make {
  height : Z;
  width : Z;
  moves_made : gset Cell;
  mines : gset Cell;
  safes : gset Cell;
  knowledge : list Sentence
}.

(** [__init__] *)
Definition init (height width : Z) : t := Make height width ∅ ∅ ∅ [].

Definition set_knowledge (K : list Sentence) (ai : t) : t :=
  Make (height ai) (width ai) (moves_made ai) (mines ai) (safes ai) K.

(** [self.knowledge.append(s)] *)
Definition append (s : Sentence) (ai : t) : t :=
  set_knowledge (knowledge ai ++ [s]) ai.

(** [mark_mine]: [self.mines.add(cell)], then [sentence.mark_mine(cell)]
    on every sentence of [self.knowledge]. *)
Definition mark_mine (cell : Cell) (ai : t) : t :=
  Make (height ai) (width ai) (moves_made ai)
       ({[ cell ]} ∪ mines ai) (safes ai)
       (Sentence.mark_mine cell <$> knowledge ai).

(** [mark_safe]: [self.safes.add(cell)], then [sentence.mark_safe(cell)]
    on every sentence of [self.knowledge]. *)
Definition mark_safe (cell : Cell) (ai : t) : t :=
  Make (height ai) (width ai) (moves_made ai)
       (mines ai) ({[ cell ]} ∪ safes ai)
       (Sentence.mark_safe cell <$> knowledge ai).

(** [for cell in cs: self.mark_safe(cell)] and the same for mines, over
    the cells in the order they are visited. *)
Definition mark_all_safe (cs : list Cell) (ai : t) : t :=
  foldl (λ ai cell, mark_safe cell ai) ai cs.
Definition mark_all_mine (cs : list Cell) (ai : t) : t :=
  foldl (λ ai cell, mark_mine cell ai) ai cs.

(** [range(k - 1, k + 2)] *)
Definition range3 (k : Z) : list Z := [k - 1; k; k + 1].

(** [0 <= i < self.height and 0 <= j < self.width] *)
Definition in_bounds (ai : t) (c : Cell) : bool :=
  (0 <=? c.1) && (c.1 <? height ai) && (0 <=? c.2) && (c.2 <? width ai).

(** Lines 209-216: the loop that fills [neighbor_cells]. *)
Definition neighbor_cells (ai : t) (move : Cell) : gset Cell :=
  foldl (λ acc i,
    foldl (λ acc j,
      if decide ((i, j) = move) then acc
      else if in_bounds ai (i, j) then {[ (i, j) ]} ∪ acc
      else acc) acc (range3 move.2)) ∅ (range3 move.1).

(** Lines 199-205: record the move, append [Sentence({move}, 0)], mark
    the move safe. *)
Definition record_move (move : Cell) (ai : t) : t :=
  let ai := Make (height ai) (width ai) ({[ move ]} ∪ moves_made ai)
                 (mines ai) (safes ai) (knowledge ai) in
  let move_sentence := Sentence.Make {[ move ]} 0 in
  mark_safe move (append move_sentence ai).

(** Lines 220-234.  [n] is assigned in the body of the marking loops,
    so it keeps [-10000] when the loop body never runs. *)
Definition direct_marks (o : Order) (neighbor_cells : gset Cell)
    (count : Z) (ai : t) : t :=
  let visit := iter_cells o AtNeighbors neighbor_cells in
  let '(ai, n) :=
    if decide (count = 0) then
      foldl (λ '(ai, _) cell, (mark_safe cell ai, 0)) (ai, -10000) visit
    else if decide (count = len neighbor_cells) then
      foldl (λ '(ai, _) cell, (mark_mine cell ai, 1)) (ai, -10000) visit
    else (ai, -10000) in
  if decide (-10 ≤ n) then
    foldl (λ ai cell, append (Sentence.Make {[ cell ]} n) ai) ai visit
  else ai.

(** Lines 241-253: the body of the double loop over [self.knowledge],
    at positions [i] (for [sen]) and [j] (for [sentence]).  The sentences
    are read from the list as it stands now: earlier marks have already
    rewritten them in place. *)
Definition pair_step (o : Order) (i j : nat)
    (st : t * list Sentence) : t * list Sentence :=
  let '(ai, new_knowledge) := st in
  match knowledge ai !! i, knowledge ai !! j with
  | Some sen, Some sentence =>
      if decide (sen = sentence) then st
      else if decide (Sentence.cells sen ⊂ Sentence.cells sentence) then
        let new_set := Sentence.cells sentence ∖ Sentence.cells sen in
        let new_count := Sentence.count sentence - Sentence.count sen in
        let new_knowledge :=
          new_knowledge ++ [Sentence.Make new_set new_count] in
        let visit := iter_cells o (AtPair i j) new_set in
        let ai := if decide (new_count = 0)
                  then mark_all_safe visit ai else ai in
        let ai := if decide (new_count = len new_set)
                  then mark_all_mine visit ai else ai in
        (ai, new_knowledge)
      else st
  | _, _ => st
  end.

(** Lines 238-253: both loops run over the positions of
    [self.knowledge], whose length does not change before line 255. *)
Definition subset_pass (o : Order) (ai : t) : t * list Sentence :=
  let n := length (knowledge ai) in
  foldl (λ st i, foldl (λ st j, pair_step o i j st) st (seq 0 n))
        (ai, []) (seq 0 n).

(** Line 255: [self.knowledge.extend(new_knowledge)]. *)
Definition infer_subsets (o : Order) (ai : t) : t :=
  let '(ai, new_knowledge) := subset_pass o ai in
  set_knowledge (knowledge ai ++ new_knowledge) ai.

(** Lines 257-263: [self.safes.union(safe_set)] and
    [self.mines.union(mine_set)] build a new set and drop it; nothing is
    assigned, so the state is returned as it was. *)
Definition union_known (ai : t) : t :=
  foldl (λ ai sentence,
    let _dropped_safes :=
      if decide (Sentence.count sentence = 0)
      then safes ai ∪ Sentence.known_safes sentence else safes ai in
    let _dropped_mines :=
      if decide (Sentence.count sentence = len (Sentence.cells sentence))
      then mines ai ∪ Sentence.known_mines sentence else mines ai in
    ai) ai (knowledge ai).

(** Lines 269-272: the positions whose sentence has the cells of
    [sentence], in increasing order. *)
Definition index_of (K : list Sentence) (sentence : Sentence) : list nat :=
  filter (λ i, Sentence.cells <$> K !! i = Some (Sentence.cells sentence))
         (seq 0 (length K)).

(** Lines 267-274: [index_set], a set of tuples: each tuple once. *)
Definition index_set (K : list Sentence) : list (list nat) :=
  remove_dups (index_of K <$> K).

(** Line 277: [self.knowledge[index[0]]]; [None] stands for the
    [IndexError] of an empty tuple or a position out of range. *)
Definition representative (K : list Sentence) (index : list nat)
    : option Sentence :=
  head index ≫= λ i, K !! i.

(** Lines 265-279: keep one sentence per set of cells.  Every tuple of
    [index_set] is non-empty and within range (lemma
    [representative_is_Some] below), so no [IndexError] is raised and
    [omap] drops nothing. *)
Definition reduce (o : Order) (ai : t) : t :=
  let K := knowledge ai in
  set_knowledge (omap (representative K) (iter_index o (index_set K))) ai.

(** [add_knowledge(cell, count)] *)
Definition add_knowledge (o : Order) (cell : Cell) (count : Z) (ai : t) : t :=
  let move := cell in
  let ai := record_move move ai in
  let neighbor_cells := neighbor_cells ai move in
  let ai := append (Sentence.Make neighbor_cells count) ai in
  let ai := direct_marks o neighbor_cells count ai in
  let ai := infer_subsets o ai in
  let ai := union_known ai in
  reduce o ai.

(** [random.choice(seq)] is [seq[k]] for a random position [k] below
    [len(seq)]; [r] is the random draw.  It is only called on a
    non-empty list. *)
Definition random_choice (r : nat) (seq : list Cell) : option Cell :=
  seq !! (r mod length seq)%nat.

(** [make_safe_move].  The result is paired with the state the call
    leaves behind.  [list(candidates)] lists the members in some order;
    as the position is random, [elements] loses no outcome. *)
Definition make_safe_move (r : nat) (ai : t) : option Cell * t :=
  let candidates := safes ai ∖ moves_made ai in
  if decide (0 < len candidates)
  then (random_choice r (elements candidates), ai)
  else (None, ai).

(** Lines 309-312: [all_cells], filled by the loops over
    [range(self.height)] and [range(self.width)]. *)
Definition all_cells (ai : t) : gset Cell :=
  foldl (λ acc i,
    foldl (λ acc j, {[ (i, j) ]} ∪ acc) acc (seqZ 0 (width ai)))
    ∅ (seqZ 0 (height ai)).

(** [make_random_move] *)
Definition make_random_move (r : nat) (ai : t) : option Cell * t :=
  let random_candidates := all_cells ai ∖ mines ai ∖ moves_made ai in
  if decide (0 < len random_candidates)
  then (random_choice r (elements random_candidates), ai)
  else (None, ai).

(** The state after step 3 of [add_knowledge] (line 217), and the state
    just before the final reduction (line 265). *)
Definition after_observation_sentence (cell : Cell) (count : Z) (ai : t) : t :=
  let ai := record_move cell ai in
  append (Sentence.Make (neighbor_cells ai cell) count) ai.

Definition before_subset_pass (o : Order) (cell : Cell) (count : Z) (ai : t) : t :=
  direct_marks o (neighbor_cells (record_move cell ai) cell) count
    (after_observation_sentence cell count ai).

Definition before_reduce (o : Order) (cell : Cell) (count : Z) (ai : t) : t :=
  union_known (infer_subsets o (before_subset_pass o cell count ai)).

End MinesweeperAI.

Abbreviation AI := MinesweeperAI.t.

Import MinesweeperAI.

(** ** The game

    class Minesweeper.  The random draws of [__init__] are an argument:
    the list of the pairs of numbers that the successive calls of
    [random.randrange] are computed from. *)

Module Minesweeper.

Record t : Type := Make {
  height : Z;
  width : Z;
  mines : gset Cell;
  board : list (list bool);
  mines_found : gset Cell
}.

Inductive exception : Type := ValueError | IndexError.

(** How a call of [__init__] ends: it returns the game, it raises, or the
    placement loop is still running when the draws are used up (with the
    game as it stands). *)
Inductive outcome : Type :=
  | Returns (g : t)
  | Raises (e : exception)
  | OutOfDraws (g : t).

(** [l[i]] for a Python list: a negative index counts from the end;
    [None] stands for [IndexError]. *)
Definition py_get {A} (l : list A) (i : Z) : option A :=
  if decide (0 ≤ i) then l !! Z.to_nat i
  else if decide (0 ≤ Z.of_nat (length l) + i)
       then l !! Z.to_nat (Z.of_nat (length l) + i)
       else None.

(** [l[i] = x] for a Python list. *)
Definition py_set {A} (l : list A) (i : Z) (x : A) : option (list A) :=
  if decide (0 ≤ i) then
    if decide (i < Z.of_nat (length l)) then Some (<[Z.to_nat i := x]> l) else None
  else if decide (0 ≤ Z.of_nat (length l) + i)
       then Some (<[Z.to_nat (Z.of_nat (length l) + i) := x]> l)
       else None.

(** [self.board[i][j]] *)
Definition board_at (g : t) (i j : Z) : option bool :=
  row ← py_get (board g) i; py_get row j.

(** [self.board[i][j] = True]: the row at [i] is updated in place. *)
Definition set_board (g : t) (i j : Z) : option (list (list bool)) :=
  row ← py_get (board g) i;
  row' ← py_set row j true;
  py_set (board g) i row'.

(** [random.randrange(n)]: a number from 0 up to [n - 1], computed from
    the draw [r]; [ValueError] ([None]) when [n] is not positive. *)
Definition randrange (r : nat) (n : Z) : option Z :=
  if decide (0 < n) then Some (Z.of_nat r `mod` n) else None.

(** Lines 18-23: the field with no mines, row after row. *)
Definition empty_board (height width : Z) : list (list bool) :=
  foldl (λ board _,
    let row := foldl (λ row _, row ++ [false]) [] (seqZ 0 width) in
    board ++ [row]) [] (seqZ 0 height).

(** Lines 26-32: [while len(self.mines) != mines], one pair of draws for
    each turn of the loop. *)
Fixpoint place_mines (target : Z) (draws : list (nat * nat)) (g : t) : outcome :=
  if decide (len (mines g) = target) then Returns g
  else match draws with
       | [] => OutOfDraws g
       | (ri, rj) :: draws =>
           match randrange ri (height g), randrange rj (width g) with
           | Some i, Some j =>
               match board_at g i j with
               | None => Raises IndexError
               | Some true => place_mines target draws g
               | Some false =>
                   match set_board g i j with
                   | None => Raises IndexError
                   | Some board' =>
                       place_mines target draws
                         (Make (height g) (width g) ({[ (i, j) ]} ∪ mines g)
                               board' (mines_found g))
                   end
               end
           | _, _ => Raises ValueError
           end
       end.

(** [__init__(height, width, mines)] *)
Definition init (height width mines : Z) (draws : list (nat * nat)) : outcome :=
  place_mines mines draws (Make height width ∅ (empty_board height width) ∅).

(** [is_mine(cell)] *)
Definition is_mine (g : t) (cell : Cell) : option bool :=
  let '(i, j) := cell in board_at g i j.

(** [nearby_mines(cell)]; [None] stands for [IndexError]. *)
Definition nearby_mines (g : t) (cell : Cell) : option Z :=
  foldl (λ count i,
    foldl (λ count j,
      if decide ((i, j) = cell) then count
      else if (0 <=? i) && (i <? height g) && (0 <=? j) && (j <? width g) then
        c ← count;
        b ← board_at g i j;
        Some (if b : bool then c + 1 else c)
      else count) count (MinesweeperAI.range3 cell.2))
    (Some 0) (MinesweeperAI.range3 cell.1).

(** [won()] *)
Definition won (g : t) : bool := bool_decide (mines_found g = mines g).

End Minesweeper.

(** ** Notions used by the properties *)

(** Some sentence of the pool has exactly the cells [X]. *)
Definition has_cells (X : gset Cell) (K : list Sentence) : Prop :=
  ∃ s, s ∈ K ∧ Sentence.cells s = X.

(** The three sets of the knowledge base only grow from [ai] to [ai'], on
    the same grid. *)
Definition grows (ai ai' : AI) : Prop :=
  height ai' = height ai ∧ width ai' = width ai ∧
  moves_made ai ⊆ moves_made ai' ∧
  mines ai ⊆ mines ai' ∧
  safes ai ⊆ safes ai'.

(** A cell of the grid: [0 ≤ row < height] and [0 ≤ col < width]. *)
Definition on_grid (ai : AI) (c : Cell) : Prop :=
  0 ≤ c.1 < height ai ∧ 0 ≤ c.2 < width ai.

(** The sentence line 246 builds from [sen] and [sentence]. *)
Definition derived (sen sentence : Sentence) : Sentence :=
  Sentence.Make (Sentence.cells sentence ∖ Sentence.cells sen)
                (Sentence.count sentence - Sentence.count sen).

(** Lines 248-253: the marks a derived sentence [s] triggers, over its
    cells in the order [visit]. *)
Definition derived_marks (visit : list Cell) (s : Sentence) (ai : AI) : AI :=
  let ai := if decide (Sentence.count s = 0)
            then mark_all_safe visit ai else ai in
  if decide (Sentence.count s = len (Sentence.cells s))
  then mark_all_mine visit ai else ai.

(** A set of cells no marking operation shrinks: it has no cell to give
    up, being empty or a singleton. *)
Definition stable_cells (X : gset Cell) : Prop := ∀ c : Cell, ¬ ({[ c ]} ⊂ X).

(** Step 3 as the specification words it: the neighbours of the cell
    without the cells already in [moves_made], [mines] or [safes]. *)
Definition spec_neighbors (ai : AI) (cell : Cell) : gset Cell :=
  neighbor_cells ai cell ∖ (moves_made ai ∪ mines ai ∪ safes ai).

(** ** Truthful observations

    A mine layout [L] is the set of cells that hold a mine (the game's
    [Minesweeper.mines]).  An observation [(cell, count)] is truthful for
    [L] when [cell] holds no mine and [count] is the number of mines among
    the neighbours of [cell] on the grid: [Minesweeper.nearby_mines]
    counts the mines over the same neighbours, and the game reports it
    for a cell revealed without hitting a mine. *)

Definition truthful (L : gset Cell) (ai : AI) (cell : Cell) (count : Z) : Prop :=
  (cell ∉ L) ∧ count = len (neighbor_cells ai cell ∩ L).

(** The sentence states a fact of the layout. *)
Definition true_sentence (L : gset Cell) (s : Sentence) : Prop :=
  Sentence.count s = len (Sentence.cells s ∩ L).

(** Everything the knowledge base holds is a fact of the layout. *)
Definition sound (L : gset Cell) (ai : AI) : Prop :=
  safes ai ## L ∧ mines ai ⊆ L ∧ Forall (true_sentence L) (knowledge ai).

(** [0 ≤ count ≤ |cells|] *)
Definition count_in_range (s : Sentence) : Prop :=
  0 ≤ Sentence.count s ≤ len (Sentence.cells s).

(** The states a sequence of [add_knowledge] calls reaches from a fresh
    knowledge base, each call with an iteration order of its own. *)
Inductive reachable (height width : Z) : AI → Prop :=
  | reachable_init : reachable height width (init height width)
  | reachable_step o cell count ai :
      valid_order o →
      reachable height width ai →
      reachable height width (add_knowledge o cell count ai).

(** The same, when every observation is truthful for the layout [L]. *)
Inductive reachable_truthfully (L : gset Cell) (height width : Z) : AI → Prop :=
  | truthfully_init : reachable_truthfully L height width (init height width)
  | truthfully_step o cell count ai :
      valid_order o →
      reachable_truthfully L height width ai →
      truthful L ai cell count →
      reachable_truthfully L height width (add_knowledge o cell count ai).

(** The states a call of [add_knowledge] goes through: after lines 205,
    217, 234, 253 and 263, and on return.  Between two of them the code
    only marks cells and appends sentences. *)
Definition stages (o : Order) (cell : Cell) (count : Z) (ai : AI) : list AI :=
  [ record_move cell ai;
    after_observation_sentence cell count ai;
    before_subset_pass o cell count ai;
    (subset_pass o (before_subset_pass o cell count ai)).1;
    before_reduce o cell count ai;
    add_knowledge o cell count ai ].

(** An iteration order other than [canonical], to run the model twice. *)
Definition reversed : Order :=
  MkOrder (λ _ X, reverse (elements X)) reverse.

(** ** The combined fixed point of the specification *)

(** Direct inference has nothing left to do: the cells of a sentence with
    count 0 are in [safes], those of a sentence whose count is the number
    of its cells are in [mines]. *)
Definition direct_closed (ai : AI) : Prop :=
  Forall (λ s,
    (Sentence.count s = 0 → Sentence.cells s ⊆ safes ai) ∧
    (Sentence.count s = len (Sentence.cells s) → Sentence.cells s ⊆ mines ai))
    (knowledge ai).

(** Subset inference has nothing left to do: for distinct sentences [A]
    and [B] of the pool with the cells of [A] strictly among those of
    [B], the derived sentence is in the pool. *)
Definition subset_closed (ai : AI) : Prop :=
  Forall (λ A, Forall (λ B,
    A ≠ B → Sentence.cells A ⊂ Sentence.cells B → derived A B ∈ knowledge ai)
    (knowledge ai)) (knowledge ai).

Definition fixed_point (ai : AI) : Prop := direct_closed ai ∧ subset_closed ai.

(** ** The subset pass, visit by visit *)

(** The ordered pairs of positions of a pool of [n] sentences, in the
    order the loops of lines 240-241 visit them: [i], the position of
    [sen], in the outer loop and [j], the position of [sentence], in the
    inner one. *)
Definition visits (n : nat) : list (nat * nat) :=
  seq 0 n ≫= λ i, (λ j, (i, j)) <$> seq 0 n.

(** The knowledge base and the list [new_knowledge] after the first [k]
    visits of the pass that starts from [ai]. *)
Definition pass_upto (o : Order) (ai : AI) (k : nat) : AI * list Sentence :=
  foldl (λ st p, pair_step o p.1 p.2 st) (ai, [])
        (take k (visits (length (knowledge ai)))).

(** Position by position, the sentences of [K'] are those of [K] with
    cells taken out, never the last one. *)
Definition shrunk (K K' : list Sentence) : Prop :=
  length K' = length K ∧
  ∀ (i : nat) s s', K !! i = Some s → K' !! i = Some s' →
    Sentence.cells s' ⊆ Sentence.cells s ∧
    (Sentence.cells s ≠ ∅ → Sentence.cells s' ≠ ∅).

(** The states a sequence of [add_knowledge] calls reaches from a fresh
    knowledge base when every observed cell is on the grid; the counts
    are arbitrary. *)
Inductive reachable_on_grid (height width : Z) : AI → Prop :=
  | on_grid_init : reachable_on_grid height width (init height width)
  | on_grid_step o cell count ai :
      valid_order o →
      reachable_on_grid height width ai →
      on_grid ai cell →
      reachable_on_grid height width (add_knowledge o cell count ai).

(** ** Notions about the game *)

(** A square of the game's board. *)
Definition on_board (g : Minesweeper.t) (c : Cell) : Prop :=
  0 ≤ c.1 < Minesweeper.height g ∧ 0 ≤ c.2 < Minesweeper.width g.

(** The board has [height] rows of [width] squares. *)
Definition shaped (g : Minesweeper.t) : Prop :=
  length (Minesweeper.board g) = Z.to_nat (Minesweeper.height g) ∧
  Forall (λ row, length row = Z.to_nat (Minesweeper.width g)) (Minesweeper.board g).

(** The board and the set of mines tell the same layout. *)
Definition consistent (g : Minesweeper.t) : Prop :=
  shaped g ∧
  (∀ c, on_board g c →
        Minesweeper.board_at g c.1 c.2 = Some (bool_decide (c ∈ Minesweeper.mines g))) ∧
  (∀ c, c ∈ Minesweeper.mines g → on_board g c).

(** The cell a pair of draws stands for, on a board of the given size. *)
Definition cell_of_draw (height width : Z) (d : nat * nat) : Cell :=
  (Z.of_nat d.1 `mod` height, Z.of_nat d.2 `mod` width).

(** A fresh knowledge base for the game [g]. *)
Definition player (g : Minesweeper.t) : AI :=
  init (Minesweeper.height g) (Minesweeper.width g).

(** The knowledge bases of a player who reveals cells of the game [g],
    never a mine, and records what [nearby_mines] reports for each. *)
Inductive played (g : Minesweeper.t) : AI → Prop :=
  | played_init : played g (player g)
  | played_step o cell count ai :
      valid_order o →
      played g ai →
      Minesweeper.is_mine g cell = Some false →
      Minesweeper.nearby_mines g cell = Some count →
      played g (add_knowledge o cell count ai).

(** A 2x3 game with mines at [(0,1)] and [(1,1)], as [__init__] builds
    it from the draws [(4,4)], [(1,1)]. *)
Definition sample_game : Minesweeper.t :=
  Minesweeper.Make 2 3 {[ (0, 1); (1, 1) ]}
    [[false; true; false]; [false; true; false]] ∅.

(** * Properties *)

(** ** Sentences *)

Section SentenceFacts.
Implicit Types (s : Sentence) (cell : Cell).

Lemma singleton_strict_subset cell (X : gset Cell) :
  {[ cell ]} ⊂ X ↔ cell ∈ X ∧ X ≠ {[ cell ]}.
Proof.
  split.
  - intros [Hsub Hne]. split; [set_solver|]. intros ->. by apply Hne.
  - intros [Hin Hne]. split; [set_solver|].
    intros Hsub. apply Hne. apply set_eq. set_solver.
Qed.

Lemma mark_mine_singleton cell s :
  Sentence.cells s = {[ cell ]} →
  Sentence.mark_mine cell s = Sentence.Make (Sentence.cells s) 1.
Proof. intros H. unfold Sentence.mark_mine. by rewrite decide_True. Qed.

Lemma mark_mine_member cell s :
  cell ∈ Sentence.cells s → Sentence.cells s ≠ {[ cell ]} →
  Sentence.mark_mine cell s =
    Sentence.Make (Sentence.cells s ∖ {[ cell ]}) (Sentence.count s - 1).
Proof.
  intros Hin Hne. unfold Sentence.mark_mine.
  rewrite decide_False by done.
  rewrite decide_True; [done|]. by apply singleton_strict_subset.
Qed.

Lemma mark_mine_absent cell s :
  cell ∉ Sentence.cells s → Sentence.mark_mine cell s = s.
Proof.
  intros Hnot. unfold Sentence.mark_mine.
  rewrite decide_False by (intros Heq; rewrite Heq in Hnot; set_solver).
  rewrite decide_False; [done|].
  rewrite singleton_strict_subset. tauto.
Qed.

Lemma mark_safe_singleton cell s :
  Sentence.cells s = {[ cell ]} →
  Sentence.mark_safe cell s = Sentence.Make (Sentence.cells s) 0.
Proof. intros H. unfold Sentence.mark_safe. by rewrite decide_True. Qed.

Lemma mark_safe_member cell s :
  cell ∈ Sentence.cells s → Sentence.cells s ≠ {[ cell ]} →
  Sentence.mark_safe cell s =
    Sentence.Make (Sentence.cells s ∖ {[ cell ]}) (Sentence.count s).
Proof.
  intros Hin Hne. unfold Sentence.mark_safe.
  rewrite decide_False by done.
  rewrite decide_True; [done|]. by apply singleton_strict_subset.
Qed.

Lemma mark_safe_absent cell s :
  cell ∉ Sentence.cells s → Sentence.mark_safe cell s = s.
Proof.
  intros Hnot. unfold Sentence.mark_safe.
  rewrite decide_False by (intros Heq; rewrite Heq in Hnot; set_solver).
  rewrite decide_False; [done|].
  rewrite singleton_strict_subset. tauto.
Qed.

(** The three cases of a marking operation. *)
Lemma mark_cases cell s :
  Sentence.cells s = {[ cell ]} ∨
  (cell ∈ Sentence.cells s ∧ Sentence.cells s ≠ {[ cell ]}) ∨
  cell ∉ Sentence.cells s.
Proof.
  destruct (decide (Sentence.cells s = {[ cell ]})); [by left|].
  destruct (decide (cell ∈ Sentence.cells s)); [right; by left|].
  right; by right.
Qed.

End SentenceFacts.

(** C4. [known_mines] and [known_safes] return the whole cell set of the
    sentence whatever its count: for the sentence [{(0,0), (0,1)} = 1],
    whose count is neither 0 nor the number of its cells, both queries
    return both cells, where the docstrings ("known to be mines", "known
    to be safe") and the specification ask for the empty set. *)
Theorem known_queries_ignore_count :
  let s := Sentence.Make {[ (0, 0); (0, 1) ]} 1 in
  Sentence.count s ≠ 0 ∧ Sentence.count s ≠ len (Sentence.cells s) ∧
  Sentence.known_mines s = {[ (0, 0); (0, 1) ]} ∧
  Sentence.known_safes s = {[ (0, 0); (0, 1) ]} ∧
  Sentence.known_mines s ≠ ∅ ∧ Sentence.known_safes s ≠ ∅.
Proof. cbv zeta. compute_done. Qed.

(** The queries never look at the count. *)
Lemma known_mines_is_cells (s : Sentence) :
  Sentence.known_mines s = Sentence.cells s ∧
  Sentence.known_safes s = Sentence.cells s.
Proof. done. Qed.

(** C5, as the claim states it, fails on a singleton: marking the only
    cell of [{(0,0)} = 1] as a mine keeps the cell in the sentence and
    leaves the count at 1, where the claim removes it and counts 0. *)
Lemma mark_mine_singleton_kept :
  let s := Sentence.mark_mine (0, 0) (Sentence.Make {[ (0, 0) ]} 1) in
  (0, 0) ∈ Sentence.cells s ∧ Sentence.count s = 1.
Proof. cbv zeta. compute_done. Qed.

(** C5, amended.  [Sentence.mark_mine cell]: when [cell] is a member and
    the sentence has another cell, [cell] is removed and the count goes
    down by one; when the cell set is exactly [{cell}], the cell set is
    kept and the count is set to 1; when [cell] is absent, nothing
    changes. *)
Theorem sentence_mark_mine_spec (cell : Cell) (s : Sentence) :
  (cell ∈ Sentence.cells s ∧ Sentence.cells s ≠ {[ cell ]} →
     Sentence.cells (Sentence.mark_mine cell s) = Sentence.cells s ∖ {[ cell ]} ∧
     Sentence.count (Sentence.mark_mine cell s) = Sentence.count s - 1) ∧
  (Sentence.cells s = {[ cell ]} →
     Sentence.cells (Sentence.mark_mine cell s) = {[ cell ]} ∧
     Sentence.count (Sentence.mark_mine cell s) = 1) ∧
  (cell ∉ Sentence.cells s → Sentence.mark_mine cell s = s).
Proof.
  split_and!.
  - intros [Hin Hne]. by rewrite mark_mine_member.
  - intros Heq. by rewrite mark_mine_singleton.
  - apply mark_mine_absent.
Qed.

(** ** The scenarios of the specification, run on the model *)

(** Scenario A: on a 3x3 grid, observing [(1,1)] with count 1 records the
    sentence over the eight neighbours and infers nothing. *)
Example scenario_A :
  let ai := add_knowledge canonical (1, 1) 1 (init 3 3) in
  Sentence.Make {[ (0,0); (0,1); (0,2); (1,0); (1,2); (2,0); (2,1); (2,2) ]} 1
    ∈ knowledge ai ∧
  mines ai = ∅ ∧ safes ai = {[ (1, 1) ]}.
Proof. cbv zeta. compute_done. Qed.

(** Scenario B: with count 0 the eight neighbours are marked safe. *)
Example scenario_B :
  let ai := add_knowledge canonical (1, 1) 0 (init 3 3) in
  safes ai = {[ (0,0); (0,1); (0,2); (1,0); (1,1); (1,2); (2,0); (2,1); (2,2) ]} ∧
  mines ai = ∅.
Proof. cbv zeta. compute_done. Qed.

(** Scenario C: observing the corner [(0,0)] with count 3 marks its three
    neighbours as mines. *)
Example scenario_C :
  let ai := add_knowledge canonical (0, 0) 3 (init 3 3) in
  mines ai = {[ (0,1); (1,0); (1,1) ]} ∧ safes ai = {[ (0, 0) ]}.
Proof. cbv zeta. compute_done. Qed.

(** Scenario D: from [{(0,0), (0,1), (0,2)} = 1] and [{(0,0), (0,1)} = 1]
    the subset pass derives [{(0,2)} = 0] and marks [(0,2)] safe. *)
Example scenario_D :
  let ai := set_knowledge [ Sentence.Make {[ (0,0); (0,1); (0,2) ]} 1;
                            Sentence.Make {[ (0,0); (0,1) ]} 1 ] (init 3 3) in
  (subset_pass canonical ai).2 = [ Sentence.Make {[ (0, 2) ]} 0 ] ∧
  safes (infer_subsets canonical ai) = {[ (0, 2) ]}.
Proof. cbv zeta. compute_done. Qed.

(** ** Loops *)

Lemma foldl_invariant {A B} (P : B → Prop) (f : B → A → B) (l : list A) (b : B) :
  P b → (∀ b x, x ∈ l → P b → P (f b x)) → P (foldl f b l).
Proof.
  revert b. induction l as [|x l IH]; intros b Hb Hstep; simpl; [done|].
  apply IH.
  - apply Hstep; [left | done].
  - intros b' y Hy. apply Hstep. by right.
Qed.

(** A loop that passes through [x] reaches [Q] when its body, run on [x]
    in a state satisfying [I], establishes [Q], and no iteration undoes
    [I] or [Q]. *)
Lemma foldl_reaches {A B} (I Q : B → Prop) (f : B → A → B) (l : list A) (x : A) (b : B) :
  x ∈ l → I b →
  (∀ b y, I b → I (f b y)) →
  (∀ b, I b → Q (f b x)) →
  (∀ b y, Q b → Q (f b y)) →
  Q (foldl f b l).
Proof.
  intros Hx Hb HI Hx' HQ. revert b Hb.
  induction l as [|a l IH]; intros b Hb; [by apply elem_of_nil in Hx|].
  simpl. apply elem_of_cons in Hx as [<- | Hx].
  - apply (foldl_invariant Q); [by apply Hx'|]. intros b' y _. apply HQ.
  - apply IH; [done|]. by apply HI.
Qed.

Lemma valid_order_visits (o : Order) (site : Site) (X : gset Cell) (c : Cell) :
  valid_order o → c ∈ iter_cells o site X ↔ c ∈ X.
Proof. intros [Hperm _]. rewrite (Hperm site X). apply elem_of_elements. Qed.

Lemma canonical_valid : valid_order canonical.
Proof. split; intros; reflexivity. Qed.

Lemma reversed_valid : valid_order reversed.
Proof. split; intros; simpl; apply reverse_Permutation. Qed.

(** ** Move selection *)

Lemma random_choice_Some (r : nat) (l : list Cell) :
  l ≠ [] → ∃ c, random_choice r l = Some c ∧ c ∈ l.
Proof.
  intros Hne. unfold random_choice.
  destruct (lookup_lt_is_Some_2 l (r mod length l)%nat) as [c Hc].
  - apply Nat.mod_upper_bound. destruct l; [done | simpl; lia].
  - exists c. split; [done|]. by eapply list_elem_of_lookup_2.
Qed.

Lemma len_pos_elements (X : gset Cell) : 0 < len X → elements X ≠ [].
Proof.
  unfold len. intros Hpos Hnil.
  apply elements_empty_inv in Hnil. apply leibniz_equiv in Hnil.
  subst X. rewrite size_empty in Hpos. lia.
Qed.

Lemma len_not_pos (X : gset Cell) : ¬ 0 < len X ↔ X = ∅.
Proof.
  unfold len. split.
  - intros Hn. apply leibniz_equiv, size_empty_inv. lia.
  - intros ->. rewrite size_empty. lia.
Qed.

(** What a guarded [random.choice(list(candidates))] returns. *)
Lemma choose_spec (r : nat) (X : gset Cell) (ai : AI) :
  let res := if decide (0 < len X)
             then (random_choice r (elements X), ai) else (None, ai) in
  res.2 = ai ∧ (∀ c, res.1 = Some c → c ∈ X) ∧ (res.1 = None ↔ X = ∅).
Proof.
  cbv zeta. destruct (decide (0 < len X)) as [Hpos|Hn]; simpl.
  - destruct (random_choice_Some r (elements X)) as (c & Hc & Hin).
    { by apply len_pos_elements. }
    rewrite Hc. split_and!; [done | |].
    + intros c' [= <-]. by apply elem_of_elements.
    + split; [done|]. intros ->. unfold len in Hpos.
      rewrite size_empty in Hpos. lia.
  - split_and!; [done.. |]. split; [|done]. intros _. by apply len_not_pos.
Qed.

Lemma elem_of_grid_loop (li lj : list Z) (acc : gset Cell) (c : Cell) :
  c ∈ foldl (λ acc i, foldl (λ acc j, {[ (i, j) ]} ∪ acc) acc lj) acc li
  ↔ c ∈ acc ∨ (c.1 ∈ li ∧ c.2 ∈ lj).
Proof.
  assert (Hinner : ∀ (i : Z) (lj : list Z) (acc : gset Cell),
    c ∈ foldl (λ acc j, {[ (i, j) ]} ∪ acc) acc lj
    ↔ c ∈ acc ∨ (c.1 = i ∧ c.2 ∈ lj)).
  { clear. intros i lj. induction lj as [|j lj IH]; intros acc; simpl.
    - set_solver.
    - rewrite IH. destruct c as [ci cj]. set_solver. }
  revert acc. induction li as [|i li IH]; intros acc; simpl.
  - set_solver.
  - rewrite IH, Hinner. set_solver.
Qed.

Lemma elem_of_all_cells (ai : AI) (c : Cell) :
  c ∈ all_cells ai ↔ on_grid ai c.
Proof.
  unfold all_cells, on_grid. rewrite elem_of_grid_loop, !elem_of_seqZ.
  set_solver by lia.
Qed.

(** C8.  [make_safe_move] leaves the state as it is, returns a member of
    [safes − moves_made], and returns [None] exactly when that set is
    empty; [make_random_move] leaves the state as it is, returns a cell of
    the grid that is neither in [mines] nor in [moves_made], and returns
    [None] exactly when there is no such cell.  This holds for every
    random draw [r]. *)
Theorem move_selection_spec (r : nat) (ai : AI) :
  ((make_safe_move r ai).2 = ai ∧
   (∀ c, (make_safe_move r ai).1 = Some c → c ∈ safes ai ∖ moves_made ai) ∧
   ((make_safe_move r ai).1 = None ↔ safes ai ∖ moves_made ai = ∅)) ∧
  ((make_random_move r ai).2 = ai ∧
   (∀ c, (make_random_move r ai).1 = Some c →
         on_grid ai c ∧ (c ∉ mines ai) ∧ (c ∉ moves_made ai)) ∧
   ((make_random_move r ai).1 = None ↔
      ∀ c, on_grid ai c → c ∈ mines ai ∨ c ∈ moves_made ai)).
Proof.
  split.
  - apply (choose_spec r (safes ai ∖ moves_made ai) ai).
  - destruct (choose_spec r (all_cells ai ∖ mines ai ∖ moves_made ai) ai)
      as (Hst & Hsome & Hnone).
    fold (make_random_move r ai) in Hst, Hsome, Hnone.
    split_and!; [done | |].
    + intros c Hc. apply Hsome in Hc.
      rewrite !elem_of_difference, elem_of_all_cells in Hc. tauto.
    + rewrite Hnone. split.
      * intros Hempty c Hgrid.
        destruct (decide (c ∈ mines ai)); [by left|].
        destruct (decide (c ∈ moves_made ai)); [by right|].
        exfalso. apply (not_elem_of_empty (C:=gset Cell) c). rewrite <- Hempty.
        rewrite !elem_of_difference, elem_of_all_cells. tauto.
      * intros Hall. apply set_eq. intros c.
        rewrite !elem_of_difference, elem_of_all_cells.
        split; [|set_solver]. intros [[Hg Hm] Hv].
        destruct (Hall c Hg); tauto.
Qed.

(** Every eligible cell is returned for some draw: the model of
    [random.choice] loses no outcome. *)
Lemma make_safe_move_any (ai : AI) (c : Cell) :
  c ∈ safes ai ∖ moves_made ai → ∃ r, (make_safe_move r ai).1 = Some c.
Proof.
  intros Hc. unfold make_safe_move.
  assert (Hin : c ∈ elements (safes ai ∖ moves_made ai)) by by apply elem_of_elements.
  apply list_elem_of_lookup_1 in Hin as [i Hi].
  exists i. rewrite decide_True.
  - simpl. unfold random_choice.
    rewrite Nat.mod_small; [done|]. by eapply lookup_lt_Some.
  - destruct (decide (0 < len (safes ai ∖ moves_made ai))) as [|Hn]; [done|].
    apply len_not_pos in Hn. rewrite Hn in Hc. set_solver.
Qed.

(** ** Marking loops *)

Section Marking.
Implicit Types (ai : AI) (cell c : Cell) (cs : list Cell) (o : Order).

Lemma grows_refl ai : grows ai ai.
Proof. by unfold grows. Qed.

Lemma grows_trans ai1 ai2 ai3 : grows ai1 ai2 → grows ai2 ai3 → grows ai1 ai3.
Proof.
  unfold grows. intros (-> & -> & ? & ? & ?) (-> & -> & ? & ? & ?).
  split_and!; [done.. | set_solver | set_solver | set_solver].
Qed.

Lemma grows_mark_safe cell ai : grows ai (mark_safe cell ai).
Proof. unfold grows; simpl. split_and!; [done.. | set_solver]. Qed.

Lemma grows_mark_mine cell ai : grows ai (mark_mine cell ai).
Proof. unfold grows; simpl. split_and!; [done.. | set_solver | done]. Qed.

Lemma grows_set_knowledge K ai : grows ai (set_knowledge K ai).
Proof. by unfold grows. Qed.

Lemma grows_mark_all_safe cs ai : grows ai (mark_all_safe cs ai).
Proof.
  unfold mark_all_safe. apply (foldl_invariant (grows ai)); [apply grows_refl|].
  intros b x _ Hb. eapply grows_trans; [done | apply grows_mark_safe].
Qed.

Lemma grows_mark_all_mine cs ai : grows ai (mark_all_mine cs ai).
Proof.
  unfold mark_all_mine. apply (foldl_invariant (grows ai)); [apply grows_refl|].
  intros b x _ Hb. eapply grows_trans; [done | apply grows_mark_mine].
Qed.

(** The sets after a marking loop. *)
Lemma mark_all_safe_sets cs ai :
  safes (mark_all_safe cs ai) = list_to_set cs ∪ safes ai ∧
  mines (mark_all_safe cs ai) = mines ai ∧
  moves_made (mark_all_safe cs ai) = moves_made ai.
Proof.
  revert ai. induction cs as [|c cs IH]; intros ai; simpl.
  - split_and!; [set_solver | done..].
  - destruct (IH (mark_safe c ai)) as (-> & -> & ->). simpl.
    split_and!; [set_solver | done..].
Qed.

Lemma mark_all_mine_sets cs ai :
  mines (mark_all_mine cs ai) = list_to_set cs ∪ mines ai ∧
  safes (mark_all_mine cs ai) = safes ai ∧
  moves_made (mark_all_mine cs ai) = moves_made ai.
Proof.
  revert ai. induction cs as [|c cs IH]; intros ai; simpl.
  - split_and!; [set_solver | done..].
  - destruct (IH (mark_mine c ai)) as (-> & -> & ->). simpl.
    split_and!; [set_solver | done..].
Qed.

(** The loops of lines 222-228 return the marked state, and [n] tells
    whether the loop body ran. *)
Lemma direct_loop_safe cs ai (n0 : Z) :
  foldl (λ '(ai, _) cell, (mark_safe cell ai, 0)) (ai, n0) cs
  = (mark_all_safe cs ai, match cs with [] => n0 | _ => 0 end).
Proof.
  revert ai n0. induction cs as [|c cs IH]; intros ai n0; simpl; [done|].
  rewrite IH. by destruct cs.
Qed.

Lemma direct_loop_mine cs ai (n0 : Z) :
  foldl (λ '(ai, _) cell, (mark_mine cell ai, 1)) (ai, n0) cs
  = (mark_all_mine cs ai, match cs with [] => n0 | _ => 1 end).
Proof.
  revert ai n0. induction cs as [|c cs IH]; intros ai n0; simpl; [done|].
  rewrite IH. by destruct cs.
Qed.

(** Line 231-234 appends one singleton sentence per visited cell. *)
Lemma append_loop cs (n : Z) ai :
  foldl (λ ai cell, append (Sentence.Make {[ cell ]} n) ai) ai cs
  = set_knowledge (knowledge ai ++ ((λ cell, Sentence.Make {[ cell ]} n) <$> cs)) ai.
Proof.
  revert ai. induction cs as [|c cs IH]; intros ai; simpl.
  - rewrite app_nil_r. by destruct ai.
  - rewrite IH. unfold append, set_knowledge; simpl.
    by rewrite <- app_assoc.
Qed.

(** [direct_marks], case by case. *)
Lemma direct_marks_eq o (N : gset Cell) (count : Z) ai :
  direct_marks o N count ai =
    let visit := iter_cells o AtNeighbors N in
    if decide (visit = []) then ai
    else if decide (count = 0) then
      let ai := mark_all_safe visit ai in
      set_knowledge (knowledge ai ++ ((λ cell, Sentence.Make {[ cell ]} 0) <$> visit)) ai
    else if decide (count = len N) then
      let ai := mark_all_mine visit ai in
      set_knowledge (knowledge ai ++ ((λ cell, Sentence.Make {[ cell ]} 1) <$> visit)) ai
    else ai.
Proof.
  unfold direct_marks. cbv zeta.
  destruct (decide (count = 0)) as [Hz|Hz].
  - rewrite direct_loop_safe.
    destruct (iter_cells o AtNeighbors N) as [|c cs] eqn:Hv.
    + simpl. by repeat case_decide.
    + cbv beta iota. rewrite append_loop. repeat case_decide; first [done | lia].
  - destruct (decide (count = len N)) as [Hl|Hl].
    + rewrite direct_loop_mine.
      destruct (iter_cells o AtNeighbors N) as [|c cs] eqn:Hv.
      * simpl. by repeat case_decide.
      * cbv beta iota. rewrite append_loop. repeat case_decide; first [done | lia].
    + repeat case_decide; first [done | lia].
Qed.

Lemma grows_direct_marks o (N : gset Cell) (count : Z) ai :
  grows ai (direct_marks o N count ai).
Proof.
  rewrite direct_marks_eq. cbv zeta.
  repeat case_decide; try apply grows_refl.
  - eapply grows_trans; [apply grows_mark_all_safe | apply grows_set_knowledge].
  - eapply grows_trans; [apply grows_mark_all_mine | apply grows_set_knowledge].
Qed.

Lemma grows_record_move cell ai :
  grows ai (record_move cell ai) ∧ cell ∈ moves_made (record_move cell ai)
  ∧ cell ∈ safes (record_move cell ai).
Proof. unfold grows; simpl. split_and!; [done.. | set_solver | done | set_solver | set_solver | set_solver]. Qed.

End Marking.

(** ** The subset pass *)

Section SubsetPass.
Implicit Types (ai : AI) (o : Order) (new : list Sentence) (i j : nat).

(** One iteration of the double loop either changes nothing or derives
    one sentence and applies its marks. *)
Lemma pair_step_cases o i j ai new :
  pair_step o i j (ai, new) = (ai, new) ∨
  ∃ sen sentence,
    knowledge ai !! i = Some sen ∧ knowledge ai !! j = Some sentence ∧
    sen ≠ sentence ∧ Sentence.cells sen ⊂ Sentence.cells sentence ∧
    pair_step o i j (ai, new) =
      (derived_marks (iter_cells o (AtPair i j) (Sentence.cells (derived sen sentence)))
                     (derived sen sentence) ai,
       new ++ [derived sen sentence]).
Proof.
  unfold pair_step.
  destruct (knowledge ai !! i) as [sen|] eqn:Hi; [|by left].
  destruct (knowledge ai !! j) as [sentence|] eqn:Hj; [|by left].
  destruct (decide (sen = sentence)) as [|Hne]; [by left|].
  destruct (decide (Sentence.cells sen ⊂ Sentence.cells sentence)) as [Hsub|]; [|by left].
  right. exists sen, sentence. by split_and!.
Qed.

Lemma subset_pass_invariant (P : AI * list Sentence → Prop) o ai :
  P (ai, []) →
  (∀ i j st, P st → P (pair_step o i j st)) →
  P (subset_pass o ai).
Proof.
  intros Hinit Hstep. unfold subset_pass.
  apply (foldl_invariant P); [done|].
  intros st i _ Hst. apply (foldl_invariant P); [done|].
  intros st' j _ Hst'. by apply Hstep.
Qed.

Lemma grows_derived_marks visit s ai : grows ai (derived_marks visit s ai).
Proof.
  unfold derived_marks. repeat case_decide; try apply grows_refl.
  - eapply grows_trans; [apply grows_mark_all_safe | apply grows_mark_all_mine].
  - apply grows_mark_all_mine.
  - apply grows_mark_all_safe.
Qed.

Lemma grows_pair_step o i j ai new : grows ai (pair_step o i j (ai, new)).1.
Proof.
  destruct (pair_step_cases o i j ai new) as [-> | (sen & sentence & _ & _ & _ & _ & ->)].
  - apply grows_refl.
  - apply grows_derived_marks.
Qed.

Lemma grows_subset_pass o ai : grows ai (subset_pass o ai).1.
Proof.
  apply (subset_pass_invariant (λ st, grows ai st.1)); [apply grows_refl|].
  intros i j [ai' new] Hg. eapply grows_trans; [done | apply grows_pair_step].
Qed.

Lemma grows_infer_subsets o ai : grows ai (infer_subsets o ai).
Proof.
  unfold infer_subsets. pose proof (grows_subset_pass o ai) as Hg.
  destruct (subset_pass o ai) as [ai' new].
  eapply grows_trans; [done | apply grows_set_knowledge].
Qed.

Lemma infer_subsets_eq o ai :
  infer_subsets o ai =
    set_knowledge (knowledge (subset_pass o ai).1 ++ (subset_pass o ai).2)
                  (subset_pass o ai).1.
Proof. unfold infer_subsets. by destruct (subset_pass o ai). Qed.

(** Lines 257-263 change nothing. *)
Lemma union_known_id ai : union_known ai = ai.
Proof.
  unfold union_known. by apply (foldl_invariant (λ st, st = ai)).
Qed.

End SubsetPass.

Lemma add_knowledge_unfold (o : Order) (cell : Cell) (count : Z) (ai : AI) :
  add_knowledge o cell count ai = reduce o (before_reduce o cell count ai).
Proof. reflexivity. Qed.

Lemma before_reduce_unfold (o : Order) (cell : Cell) (count : Z) (ai : AI) :
  before_reduce o cell count ai = infer_subsets o (before_subset_pass o cell count ai).
Proof. unfold before_reduce. by rewrite union_known_id. Qed.

Lemma grows_before_subset_pass (o : Order) (cell : Cell) (count : Z) (ai : AI) :
  grows ai (before_subset_pass o cell count ai).
Proof.
  unfold before_subset_pass, after_observation_sentence.
  eapply grows_trans; [apply grows_record_move|].
  eapply grows_trans; [apply grows_set_knowledge | apply grows_direct_marks].
Qed.

Lemma grows_add_knowledge (o : Order) (cell : Cell) (count : Z) (ai : AI) :
  grows ai (add_knowledge o cell count ai).
Proof.
  rewrite add_knowledge_unfold, before_reduce_unfold.
  eapply grows_trans; [apply grows_before_subset_pass|].
  eapply grows_trans; [apply grows_infer_subsets | apply grows_set_knowledge].
Qed.

(** C9.  Across a call of [add_knowledge], [moves_made], [mines] and
    [safes] only grow: each set before the call is included in the set
    after it, whatever the state, the cell, the count and the order in
    which Python iterates its sets. *)
Theorem add_knowledge_monotone (o : Order) (cell : Cell) (count : Z) (ai : AI) :
  moves_made ai ⊆ moves_made (add_knowledge o cell count ai) ∧
  mines ai ⊆ mines (add_knowledge o cell count ai) ∧
  safes ai ⊆ safes (add_knowledge o cell count ai).
Proof.
  destruct (grows_add_knowledge o cell count ai) as (_ & _ & ? & ? & ?).
  by split_and!.
Qed.

(** ** The final reduction *)

Section Reduce.
Implicit Types (ai : AI) (o : Order) (K : list Sentence) (s : Sentence)
               (index : list nat) (X : gset Cell).

Lemma elem_of_index_of K s (i : nat) :
  i ∈ index_of K s ↔ ∃ s', K !! i = Some s' ∧ Sentence.cells s' = Sentence.cells s.
Proof.
  unfold index_of. rewrite list_elem_of_filter, elem_of_seq. split.
  - intros [Hc _]. destruct (K !! i) as [s'|]; [|done].
    exists s'. split; [done|]. by injection Hc.
  - intros (s' & Hi & Hc). rewrite Hi. simpl. split; [by rewrite Hc|].
    apply lookup_lt_Some in Hi. lia.
Qed.

(** The tuple only depends on the cells of the sentence. *)
Lemma index_of_cells K s1 s2 :
  Sentence.cells s1 = Sentence.cells s2 → index_of K s1 = index_of K s2.
Proof. unfold index_of. by intros ->. Qed.

(** [self.knowledge[index[0]]] never raises: the tuple of a sentence of
    the pool holds the position of that sentence. *)
Lemma representative_is_Some K s :
  s ∈ K →
  ∃ s0, representative K (index_of K s) = Some s0 ∧ s0 ∈ K ∧
        Sentence.cells s0 = Sentence.cells s.
Proof.
  intros Hs. apply list_elem_of_lookup_1 in Hs as [i Hi].
  assert (Hin : i ∈ index_of K s) by (apply elem_of_index_of; eauto).
  unfold representative.
  destruct (index_of K s) as [|i0 rest] eqn:Hidx; [by apply elem_of_nil in Hin|].
  assert (Hi0 : i0 ∈ index_of K s) by (rewrite Hidx; left).
  apply elem_of_index_of in Hi0 as (s0 & Hl & Hc).
  exists s0. simpl. split_and!; [done | by eapply list_elem_of_lookup_2 | done].
Qed.

Lemma head_filter_seq (P : nat → Prop) `{!∀ i, Decision (P i)} (a n i0 : nat) :
  head (filter P (seq a n)) = Some i0 →
  P i0 ∧ ∀ k : nat, (a ≤ k < i0)%nat → ¬ P k.
Proof.
  revert a. induction n as [|n IH]; intros a; simpl; [done|].
  rewrite filter_cons. destruct (decide (P a)) as [Ha|Ha]; simpl.
  - intros [= <-]. split; [done|]. lia.
  - intros Hhd. destruct (IH _ Hhd) as [Hi0 Hfirst]. split; [done|].
    intros k Hk. destruct (decide (k = a)) as [->|]; [done|].
    apply Hfirst. lia.
Qed.

(** The sentence kept for a set of cells is the first of the pool with
    those cells. *)
Lemma representative_first K s s0 :
  representative K (index_of K s) = Some s0 →
  ∃ i0 : nat, K !! i0 = Some s0 ∧ Sentence.cells s0 = Sentence.cells s ∧
    ∀ (k : nat) s', (k < i0)%nat → K !! k = Some s' →
                    Sentence.cells s' ≠ Sentence.cells s.
Proof.
  unfold representative, index_of.
  destruct (head _) as [i0|] eqn:Hhd; [|done]. simpl. intros Hi0.
  apply head_filter_seq in Hhd as [HP Hfirst].
  exists i0. split_and!; [done | |].
  - rewrite Hi0 in HP. simpl in HP. by injection HP.
  - intros k s' Hk Hs' Hc. apply (Hfirst k); [lia|].
    rewrite Hs'. simpl. by rewrite Hc.
Qed.

Lemma elem_of_index_set K index :
  index ∈ index_set K ↔ ∃ s, s ∈ K ∧ index = index_of K s.
Proof.
  unfold index_set. rewrite elem_of_remove_dups, list_elem_of_fmap. naive_solver.
Qed.

Lemma elem_of_reduce o ai s0 :
  valid_order o →
  s0 ∈ knowledge (reduce o ai) ↔
  ∃ s, s ∈ knowledge ai ∧ representative (knowledge ai) (index_of (knowledge ai) s) = Some s0.
Proof.
  intros [_ Hperm]. unfold reduce. simpl.
  rewrite (Hperm (index_set (knowledge ai))).
  rewrite list_elem_of_omap. setoid_rewrite elem_of_index_set. naive_solver.
Qed.

(** The reduced pool is drawn from the pool. *)
Lemma reduce_subseteq o ai :
  valid_order o → knowledge (reduce o ai) ⊆ knowledge ai.
Proof.
  intros Hv s0 Hs0. apply (elem_of_reduce o ai s0 Hv) in Hs0 as (s & Hs & Hrep).
  destruct (representative_is_Some _ _ Hs) as (s0' & Hrep' & Hin & _).
  congruence.
Qed.

(** Every set of cells of the pool keeps a sentence, and no other set
    of cells appears. *)
Lemma reduce_has_cells o ai X :
  valid_order o → has_cells X (knowledge (reduce o ai)) ↔ has_cells X (knowledge ai).
Proof.
  intros Hv. unfold has_cells. split.
  - intros (s0 & Hs0 & Hc). exists s0. split; [|done].
    by apply (reduce_subseteq o ai Hv).
  - intros (s & Hs & Hc).
    destruct (representative_is_Some _ _ Hs) as (s0 & Hrep & _ & Hc0).
    exists s0. split; [|congruence].
    apply (elem_of_reduce o ai s0 Hv). eauto.
Qed.

Lemma NoDup_fmap_omap {A B C} (f : A → option B) (g : B → C) (l : list A) :
  NoDup l →
  (∀ x y a b, x ∈ l → y ∈ l → f x = Some a → f y = Some b → g a = g b → x = y) →
  NoDup (g <$> omap f l).
Proof.
  induction 1 as [|x l Hx Hnd IH]; intros Hinj; simpl; [constructor|].
  assert (Htl : NoDup (g <$> omap f l)).
  { apply IH. intros y z a b Hy Hz. apply Hinj; by right. }
  destruct (f x) as [a|] eqn:Hfx; [|done].
  simpl. constructor; [|done].
  intros Hin. apply list_elem_of_fmap in Hin as (b & Hab & Hb).
  apply list_elem_of_omap in Hb as (y & Hy & Hfy).
  apply Hx. rewrite (Hinj x y a b); [done | by left | by right | done..].
Qed.

(** No two sentences of the reduced pool have the same cells. *)
Lemma reduce_NoDup o ai :
  valid_order o → NoDup (Sentence.cells <$> knowledge (reduce o ai)).
Proof.
  intros [_ Hperm]. unfold reduce. simpl.
  rewrite (Hperm (index_set (knowledge ai))).
  apply NoDup_fmap_omap; [apply NoDup_remove_dups|].
  intros x y a b Hx Hy Hfx Hfy Hab.
  apply elem_of_index_set in Hx as (s1 & Hs1 & ->).
  apply elem_of_index_set in Hy as (s2 & Hs2 & ->).
  destruct (representative_is_Some _ _ Hs1) as (a' & Ha & _ & Hca).
  destruct (representative_is_Some _ _ Hs2) as (b' & Hb & _ & Hcb).
  apply index_of_cells. congruence.
Qed.

End Reduce.

(** ** Sentences that marking cannot shrink *)

Section Stable.
Implicit Types (ai : AI) (o : Order) (K : list Sentence) (s : Sentence)
               (X : gset Cell) (c cell : Cell) (cs : list Cell).

Lemma stable_empty : stable_cells ∅.
Proof. intros c [Hsub _]. set_solver. Qed.

Lemma stable_singleton cell : stable_cells {[ cell ]}.
Proof.
  intros c Hsub. apply singleton_strict_subset in Hsub as [Hin Hne].
  apply Hne. apply elem_of_singleton in Hin. by subst.
Qed.

Lemma mark_safe_stable X c s :
  stable_cells X → Sentence.cells s = X → Sentence.cells (Sentence.mark_safe c s) = X.
Proof.
  intros Hst <-. unfold Sentence.mark_safe.
  repeat case_decide; simpl; try done. by destruct (Hst c).
Qed.

Lemma mark_mine_stable X c s :
  stable_cells X → Sentence.cells s = X → Sentence.cells (Sentence.mark_mine c s) = X.
Proof.
  intros Hst <-. unfold Sentence.mark_mine.
  repeat case_decide; simpl; try done. by destruct (Hst c).
Qed.

Lemma has_cells_app_l X K K' : has_cells X K → has_cells X (K ++ K').
Proof. intros (s & Hs & Hc). exists s. split; [|done]. apply elem_of_app. by left. Qed.

Lemma has_cells_app_r X K K' : has_cells X K' → has_cells X (K ++ K').
Proof. intros (s & Hs & Hc). exists s. split; [|done]. apply elem_of_app. by right. Qed.

Lemma has_cells_mark_safe X c ai :
  stable_cells X → has_cells X (knowledge ai) → has_cells X (knowledge (mark_safe c ai)).
Proof.
  intros Hst (s & Hs & Hc). exists (Sentence.mark_safe c s). split.
  - simpl. by apply list_elem_of_fmap_2.
  - by apply mark_safe_stable.
Qed.

Lemma has_cells_mark_mine X c ai :
  stable_cells X → has_cells X (knowledge ai) → has_cells X (knowledge (mark_mine c ai)).
Proof.
  intros Hst (s & Hs & Hc). exists (Sentence.mark_mine c s). split.
  - simpl. by apply list_elem_of_fmap_2.
  - by apply mark_mine_stable.
Qed.

Lemma has_cells_mark_all_safe X cs ai :
  stable_cells X → has_cells X (knowledge ai) → has_cells X (knowledge (mark_all_safe cs ai)).
Proof.
  intros Hst H. unfold mark_all_safe.
  apply (foldl_invariant (λ ai, has_cells X (knowledge ai))); [done|].
  intros b c _. by apply has_cells_mark_safe.
Qed.

Lemma has_cells_mark_all_mine X cs ai :
  stable_cells X → has_cells X (knowledge ai) → has_cells X (knowledge (mark_all_mine cs ai)).
Proof.
  intros Hst H. unfold mark_all_mine.
  apply (foldl_invariant (λ ai, has_cells X (knowledge ai))); [done|].
  intros b c _. by apply has_cells_mark_mine.
Qed.

Lemma has_cells_direct_marks X o (N : gset Cell) (count : Z) ai :
  stable_cells X → has_cells X (knowledge ai) →
  has_cells X (knowledge (direct_marks o N count ai)).
Proof.
  intros Hst H. rewrite direct_marks_eq. cbv zeta.
  repeat case_decide; try done; simpl; apply has_cells_app_l.
  - by apply has_cells_mark_all_safe.
  - by apply has_cells_mark_all_mine.
Qed.

Lemma has_cells_derived_marks X cs s ai :
  stable_cells X → has_cells X (knowledge ai) →
  has_cells X (knowledge (derived_marks cs s ai)).
Proof.
  intros Hst H. unfold derived_marks.
  repeat case_decide; try done;
    repeat first [ apply has_cells_mark_all_mine | apply has_cells_mark_all_safe ]; done.
Qed.

Lemma has_cells_infer_subsets X o ai :
  stable_cells X → has_cells X (knowledge ai) →
  has_cells X (knowledge (infer_subsets o ai)).
Proof.
  intros Hst H. unfold infer_subsets.
  assert (Hpass : has_cells X (knowledge (subset_pass o ai).1)).
  { apply (subset_pass_invariant (λ st, has_cells X (knowledge st.1))); [done|].
    intros i j [ai' new] Hst'.
    destruct (pair_step_cases o i j ai' new) as [-> | (sen & sentence & _ & _ & _ & _ & ->)];
      [done|]. by apply has_cells_derived_marks. }
  destruct (subset_pass o ai) as [ai' new]. simpl. by apply has_cells_app_l.
Qed.

(** A stable set of cells present after step 3 is still present when
    [add_knowledge] returns. *)
Lemma has_cells_add_knowledge X o cell (count : Z) ai :
  valid_order o → stable_cells X →
  has_cells X (knowledge (after_observation_sentence cell count ai)) →
  has_cells X (knowledge (add_knowledge o cell count ai)).
Proof.
  intros Hv Hst H. rewrite add_knowledge_unfold, before_reduce_unfold.
  apply reduce_has_cells; [done|].
  apply has_cells_infer_subsets; [done|].
  unfold before_subset_pass. by apply has_cells_direct_marks.
Qed.

Lemma has_cells_move_sentence cell (count : Z) ai :
  has_cells {[ cell ]} (knowledge (after_observation_sentence cell count ai)).
Proof.
  unfold after_observation_sentence. simpl. apply has_cells_app_l.
  exists (Sentence.mark_safe cell (Sentence.Make {[ cell ]} 0)). split.
  - rewrite fmap_app. apply elem_of_app. right. simpl. left.
  - by apply mark_safe_stable; [apply stable_singleton|].
Qed.

Lemma has_cells_observation_sentence cell (count : Z) ai :
  has_cells (neighbor_cells ai cell) (knowledge (after_observation_sentence cell count ai)).
Proof.
  unfold after_observation_sentence. apply has_cells_app_r.
  eexists. split; [left|done].
Qed.

End Stable.

(** C10.  When [add_knowledge(cell, count)] returns, the pool holds a
    sentence whose cells are exactly [{cell}], the observed cell itself:
    the sentence appended at line 204 is never emptied by the marking
    operations, and the final reduction keeps one sentence for each set
    of cells. *)
Theorem move_sentence_in_pool (o : Order) (cell : Cell) (count : Z) (ai : AI) :
  valid_order o →
  ∃ s, s ∈ knowledge (add_knowledge o cell count ai) ∧ Sentence.cells s = {[ cell ]}.
Proof.
  intros Hv. apply (has_cells_add_knowledge {[ cell ]} o cell count ai Hv).
  - apply stable_singleton.
  - apply has_cells_move_sentence.
Qed.

Lemma move_sentence_in_pool_witness :
  ∃ s, s ∈ knowledge (add_knowledge canonical (1, 1) 1 (init 3 3))
       ∧ Sentence.cells s = {[ (1, 1) ]}.
Proof. exact (move_sentence_in_pool canonical (1, 1) 1 (init 3 3) canonical_valid). Defined.

(** C7, as the claim states it, fails on a grid of one cell: observing
    its only cell appends [Sentence(set(), 0)], and the sentence with no
    cells is still in the pool when [add_knowledge] returns. *)
Lemma empty_sentence_in_pool :
  Sentence.Make ∅ 0 ∈ knowledge (add_knowledge canonical (0, 0) 0 (init 1 1)).
Proof. compute_done. Qed.

(** ** The observation sentence *)

Lemma elem_of_range3 (k x : Z) : x ∈ range3 k ↔ k - 1 ≤ x ≤ k + 1.
Proof.
  unfold range3. rewrite !elem_of_cons, elem_of_nil. lia.
Qed.

Lemma in_bounds_on_grid (ai : AI) (c : Cell) : in_bounds ai c = true ↔ on_grid ai c.
Proof. unfold in_bounds, on_grid. rewrite !andb_true_iff. lia. Qed.

Lemma elem_of_neighbor_loop (ai : AI) (move : Cell) (li lj : list Z)
    (acc : gset Cell) (c : Cell) :
  c ∈ foldl (λ acc i,
        foldl (λ acc j,
          if decide ((i, j) = move) then acc
          else if in_bounds ai (i, j) then {[ (i, j) ]} ∪ acc
          else acc) acc lj) acc li
  ↔ c ∈ acc ∨ (c.1 ∈ li ∧ c.2 ∈ lj ∧ c ≠ move ∧ in_bounds ai c = true).
Proof.
  assert (Hinner : ∀ (i : Z) (lj : list Z) (acc : gset Cell),
    c ∈ foldl (λ acc j,
          if decide ((i, j) = move) then acc
          else if in_bounds ai (i, j) then {[ (i, j) ]} ∪ acc
          else acc) acc lj
    ↔ c ∈ acc ∨ (c.1 = i ∧ c.2 ∈ lj ∧ c ≠ move ∧ in_bounds ai c = true)).
  { clear. intros i lj. induction lj as [|j lj IH]; intros acc; simpl.
    - set_solver.
    - rewrite IH. destruct c as [ci cj]; simpl.
      destruct (decide ((i, j) = move)) as [Heq|Hne].
      + rewrite elem_of_cons. split; [tauto|].
        intros [?|(-> & [->|?] & Hm & ?)]; tauto.
      + destruct (in_bounds ai (i, j)) eqn:Hb.
        * rewrite elem_of_union, elem_of_singleton, elem_of_cons.
          split; [|intros [?|(-> & [->|?] & ? & ?)]; tauto].
          intros [[[= -> ->]|?]|?]; tauto.
        * rewrite elem_of_cons.
          split; [tauto|]. intros [?|(-> & [->|?] & ? & Hb')]; try tauto.
          congruence. }
  revert acc. induction li as [|i li IH]; intros acc; simpl.
  - set_solver.
  - rewrite IH, Hinner, elem_of_cons. tauto.
Qed.

(** The cells of [neighbor_cells]: the cells of the grid at most one row
    and one column away from the move, the move itself left out. *)
Lemma elem_of_neighbor_cells (ai : AI) (move c : Cell) :
  c ∈ neighbor_cells ai move ↔
  c ≠ move ∧ on_grid ai c ∧
  move.1 - 1 ≤ c.1 ≤ move.1 + 1 ∧ move.2 - 1 ≤ c.2 ≤ move.2 + 1.
Proof.
  unfold neighbor_cells.
  rewrite elem_of_neighbor_loop, !elem_of_range3, in_bounds_on_grid.
  set_solver.
Qed.

(** C6, as the claim states it, fails.  On a 1x3 grid, after [(0,0)] was
    observed with count 0, observing [(0,1)] with count 1 appends the
    sentence [{(0,0), (0,2)} = 1]: the cell [(0,0)], already in
    [moves_made] and [safes], is in it, where the specification's
    filtered set is [{(0,2)}], and the sentence is still the same when
    the subset pass starts.  On a 1x1 grid the filtered set of the only
    cell is empty and a sentence is appended all the same. *)
Lemma observation_sentence_keeps_known_cells :
  let ai := add_knowledge canonical (0, 0) 0 (init 1 3) in
  (Sentence.Make {[ (0, 0); (0, 2) ]} 1
     ∈ knowledge (after_observation_sentence (0, 1) 1 ai) ∧
   length (knowledge (after_observation_sentence (0, 1) 1 ai))
     = S (length (knowledge (record_move (0, 1) ai))) ∧
   Sentence.Make {[ (0, 0); (0, 2) ]} 1
     ∈ knowledge (before_subset_pass canonical (0, 1) 1 ai) ∧
   (0, 0) ∈ moves_made ai ∧ (0, 0) ∈ safes ai ∧
   spec_neighbors (record_move (0, 1) ai) (0, 1) = {[ (0, 2) ]}) ∧
  (spec_neighbors (record_move (0, 0) (init 1 1)) (0, 0) = ∅ ∧
   knowledge (after_observation_sentence (0, 0) 0 (init 1 1))
     = [Sentence.Make {[ (0, 0) ]} 0; Sentence.Make ∅ 0]).
Proof. cbv zeta. compute_done. Qed.

(** C6, amended.  Step 3 of [add_knowledge(cell, count)] appends exactly
    one sentence to the pool, [Sentence(neighbor_cells, count)], whose
    cells are all the cells of the grid at most one row and one column
    away from [cell], [cell] itself left out: the set depends on the
    size of the grid only, no cell is excluded for being in
    [moves_made], [mines] or [safes], and the sentence is appended also
    when it has no cells.  The rest of the call starts from that pool. *)
Theorem observation_sentence_unfiltered (o : Order) (cell : Cell) (count : Z) (ai : AI) :
  knowledge (after_observation_sentence cell count ai)
    = knowledge (record_move cell ai)
        ++ [Sentence.Make (neighbor_cells ai cell) count] ∧
  (∀ c, c ∈ neighbor_cells ai cell ↔
        c ≠ cell ∧ on_grid ai c ∧
        cell.1 - 1 ≤ c.1 ≤ cell.1 + 1 ∧ cell.2 - 1 ≤ c.2 ≤ cell.2 + 1) ∧
  (∀ ai', height ai' = height ai → width ai' = width ai →
          neighbor_cells ai' cell = neighbor_cells ai cell) ∧
  add_knowledge o cell count ai
    = reduce o (union_known (infer_subsets o
        (direct_marks o (neighbor_cells ai cell) count
           (after_observation_sentence cell count ai)))).
Proof.
  split_and!; [reflexivity | | | reflexivity].
  - intros c. apply elem_of_neighbor_cells.
  - intros ai' Hh Hw. apply set_eq. intros c.
    rewrite !elem_of_neighbor_cells. unfold on_grid. by rewrite Hh, Hw.
Qed.

(** ** Soundness under truthful observations *)

Section Soundness.
Variable L : gset Cell.
Implicit Types (ai : AI) (o : Order) (K : list Sentence) (s : Sentence)
               (X : gset Cell) (c cell : Cell) (cs : list Cell).

Lemma len_inter_singleton_out c : c ∉ L → len ({[ c ]} ∩ L) = 0.
Proof.
  intros Hc. replace ({[ c ]} ∩ L) with (∅ : gset Cell) by set_solver.
  unfold len. by rewrite size_empty.
Qed.

Lemma len_inter_singleton_in c : c ∈ L → len ({[ c ]} ∩ L) = 1.
Proof.
  intros Hc. replace ({[ c ]} ∩ L) with ({[ c ]} : gset Cell) by set_solver.
  unfold len. by rewrite size_singleton.
Qed.

Lemma len_remove_mine X c :
  c ∈ X → c ∈ L → len ((X ∖ {[ c ]}) ∩ L) = len (X ∩ L) - 1.
Proof.
  intros HX HL. unfold len.
  assert (Heq : X ∩ L = {[ c ]} ∪ (X ∖ {[ c ]}) ∩ L).
  { apply set_eq. intros x. destruct (decide (x = c)); set_solver. }
  rewrite Heq.
  rewrite (size_union (C:=gset Cell) {[ c ]} ((X ∖ {[ c ]}) ∩ L)) by set_solver.
  rewrite size_singleton. lia.
Qed.

Lemma len_remove_safe X c : c ∉ L → len ((X ∖ {[ c ]}) ∩ L) = len (X ∩ L).
Proof.
  intros HL. replace ((X ∖ {[ c ]}) ∩ L) with (X ∩ L); [done|]. set_solver.
Qed.

Lemma true_mark_safe c s :
  c ∉ L → true_sentence L s → true_sentence L (Sentence.mark_safe c s).
Proof.
  unfold true_sentence. intros Hc Hs.
  destruct (mark_cases c s) as [Heq | [[Hin Hne] | Hout]].
  - rewrite mark_safe_singleton by done. simpl.
    rewrite Heq. by rewrite len_inter_singleton_out.
  - rewrite mark_safe_member by done. simpl.
    by rewrite len_remove_safe.
  - by rewrite mark_safe_absent.
Qed.

Lemma true_mark_mine c s :
  c ∈ L → true_sentence L s → true_sentence L (Sentence.mark_mine c s).
Proof.
  unfold true_sentence. intros Hc Hs.
  destruct (mark_cases c s) as [Heq | [[Hin Hne] | Hout]].
  - rewrite mark_mine_singleton by done. simpl.
    rewrite Heq. by rewrite len_inter_singleton_in.
  - rewrite mark_mine_member by done. simpl.
    rewrite len_remove_mine by done. lia.
  - by rewrite mark_mine_absent.
Qed.

(** A true sentence with count 0 has no mine; one whose count is the
    number of its cells has only mines. *)
Lemma true_zero s : true_sentence L s → Sentence.count s = 0 → Sentence.cells s ## L.
Proof.
  unfold true_sentence, len. intros Hs Hz.
  assert (Hempty : Sentence.cells s ∩ L = ∅).
  { apply leibniz_equiv, size_empty_inv. lia. }
  set_solver.
Qed.

Lemma true_full s :
  true_sentence L s → Sentence.count s = len (Sentence.cells s) → Sentence.cells s ⊆ L.
Proof.
  unfold true_sentence, len. intros Hs Hf.
  assert (Heq : Sentence.cells s ∩ L = Sentence.cells s).
  { apply set_subseteq_size_eq; [set_solver | lia]. }
  set_solver.
Qed.

Lemma true_count_in_range s : true_sentence L s → count_in_range s.
Proof.
  unfold true_sentence, count_in_range, len. intros ->.
  assert (size (Sentence.cells s ∩ L) ≤ size (Sentence.cells s))%nat
    by (apply subseteq_size; set_solver).
  lia.
Qed.

(** Subset inference derives true sentences from true sentences. *)
Lemma true_derived sen sentence :
  true_sentence L sen → true_sentence L sentence →
  Sentence.cells sen ⊂ Sentence.cells sentence →
  true_sentence L (derived sen sentence).
Proof.
  unfold true_sentence, derived, len. simpl. intros -> -> [Hsub _].
  replace ((Sentence.cells sentence ∖ Sentence.cells sen) ∩ L)
    with ((Sentence.cells sentence ∩ L) ∖ (Sentence.cells sen ∩ L)) by set_solver.
  rewrite (size_difference (C:=gset Cell) (Sentence.cells sentence ∩ L)
             (Sentence.cells sen ∩ L)) by set_solver.
  assert (size (Sentence.cells sen ∩ L) ≤ size (Sentence.cells sentence ∩ L))%nat
    by (apply subseteq_size; set_solver).
  lia.
Qed.

Lemma sound_mark_safe c ai : c ∉ L → sound L ai → sound L (mark_safe c ai).
Proof.
  intros Hc (Hs & Hm & Hk). split_and!; simpl; [set_solver | done |].
  apply Forall_fmap, Forall_forall. intros s Hin.
  apply true_mark_safe; [done|]. by eapply Forall_forall.
Qed.

Lemma sound_mark_mine c ai : c ∈ L → sound L ai → sound L (mark_mine c ai).
Proof.
  intros Hc (Hs & Hm & Hk). split_and!; simpl; [done | set_solver |].
  apply Forall_fmap, Forall_forall. intros s Hin.
  apply true_mark_mine; [done|]. by eapply Forall_forall.
Qed.

Lemma sound_mark_all_safe cs ai :
  (∀ c, c ∈ cs → c ∉ L) → sound L ai → sound L (mark_all_safe cs ai).
Proof.
  intros Hcs Hai. unfold mark_all_safe.
  apply (foldl_invariant (sound L)); [done|].
  intros b c Hc. apply sound_mark_safe. by apply Hcs.
Qed.

Lemma sound_mark_all_mine cs ai :
  (∀ c, c ∈ cs → c ∈ L) → sound L ai → sound L (mark_all_mine cs ai).
Proof.
  intros Hcs Hai. unfold mark_all_mine.
  apply (foldl_invariant (sound L)); [done|].
  intros b c Hc. apply sound_mark_mine. by apply Hcs.
Qed.

Lemma sound_extend K ai :
  sound L ai → Forall (true_sentence L) K →
  sound L (set_knowledge (knowledge ai ++ K) ai).
Proof.
  intros (Hs & Hm & Hk) HK. split_and!; simpl; [done.. |].
  by apply Forall_app.
Qed.

Lemma sound_direct_marks o X (count : Z) ai :
  valid_order o → true_sentence L (Sentence.Make X count) →
  sound L ai → sound L (direct_marks o X count ai).
Proof.
  intros Hv Htrue Hai. rewrite direct_marks_eq. cbv zeta.
  repeat case_decide; try done.
  - pose proof (true_zero _ Htrue ltac:(done)) as Hdisj. simpl in Hdisj.
    assert (Hout : ∀ c, c ∈ iter_cells o AtNeighbors X → c ∉ L).
    { intros c Hc. apply (valid_order_visits o _ _ _ Hv) in Hc. set_solver. }
    apply sound_extend; [by apply sound_mark_all_safe|].
    apply Forall_fmap, Forall_forall. intros c Hc.
    unfold true_sentence. simpl. rewrite len_inter_singleton_out; [done|].
    by apply Hout.
  - pose proof (true_full _ Htrue ltac:(done)) as Hsub. simpl in Hsub.
    assert (Hin : ∀ c, c ∈ iter_cells o AtNeighbors X → c ∈ L).
    { intros c Hc. apply (valid_order_visits o _ _ _ Hv) in Hc. set_solver. }
    apply sound_extend; [by apply sound_mark_all_mine|].
    apply Forall_fmap, Forall_forall. intros c Hc.
    unfold true_sentence. simpl. rewrite len_inter_singleton_in; [done|].
    by apply Hin.
Qed.

Lemma sound_derived_marks o (site : Site) s ai :
  valid_order o → true_sentence L s → sound L ai →
  sound L (derived_marks (iter_cells o site (Sentence.cells s)) s ai).
Proof.
  intros Hv Htrue Hai. unfold derived_marks.
  assert (Hsafe : Sentence.count s = 0 →
                  sound L (mark_all_safe (iter_cells o site (Sentence.cells s)) ai)).
  { intros Hz. apply sound_mark_all_safe; [|done].
    intros c Hc. apply (valid_order_visits o _ _ _ Hv) in Hc.
    pose proof (true_zero _ Htrue Hz). set_solver. }
  assert (Hmine : ∀ ai', sound L ai' → Sentence.count s = len (Sentence.cells s) →
                  sound L (mark_all_mine (iter_cells o site (Sentence.cells s)) ai')).
  { intros ai' Hai' Hf. apply sound_mark_all_mine; [|done].
    intros c Hc. apply (valid_order_visits o _ _ _ Hv) in Hc.
    pose proof (true_full _ Htrue Hf). set_solver. }
  repeat case_decide; auto.
Qed.

Lemma sound_pair_step o (i j : nat) ai (new : list Sentence) :
  valid_order o →
  sound L ai → Forall (true_sentence L) new →
  sound L (pair_step o i j (ai, new)).1 ∧
  Forall (true_sentence L) (pair_step o i j (ai, new)).2.
Proof.
  intros Hv Hai Hnew.
  destruct (pair_step_cases o i j ai new)
    as [-> | (sen & sentence & Hi & Hj & _ & Hsub & ->)]; [done|].
  destruct Hai as (Hs & Hm & Hk).
  assert (Htrue : true_sentence L (derived sen sentence)).
  { apply true_derived; [| |done].
    - eapply Forall_forall; [exact Hk | by eapply list_elem_of_lookup_2].
    - eapply Forall_forall; [exact Hk | by eapply list_elem_of_lookup_2]. }
  simpl. split.
  - by apply sound_derived_marks.
  - apply Forall_app. split; [done|]. by constructor.
Qed.

Lemma sound_subset_pass o ai :
  valid_order o → sound L ai →
  sound L (subset_pass o ai).1 ∧ Forall (true_sentence L) (subset_pass o ai).2.
Proof.
  intros Hv Hai.
  apply (subset_pass_invariant
           (λ st, sound L st.1 ∧ Forall (true_sentence L) st.2)); [by split|].
  intros i j [ai' new] [H1 H2]. by apply sound_pair_step.
Qed.

Lemma sound_infer_subsets o ai :
  valid_order o → sound L ai → sound L (infer_subsets o ai).
Proof.
  intros Hv Hai. rewrite infer_subsets_eq.
  destruct (sound_subset_pass o ai Hv Hai). by apply sound_extend.
Qed.

Lemma sound_reduce o ai : valid_order o → sound L ai → sound L (reduce o ai).
Proof.
  intros Hv (Hs & Hm & Hk). split_and!; [done.. |].
  apply Forall_forall. intros s Hin.
  apply (reduce_subseteq o ai Hv) in Hin.
  eapply Forall_forall; [exact Hk | done].
Qed.

Lemma sound_record_move cell ai :
  cell ∉ L → sound L ai → sound L (record_move cell ai).
Proof.
  intros Hc (Hs & Hm & Hk). unfold record_move.
  apply sound_mark_safe; [done|].
  split_and!; simpl; [done.. |].
  apply Forall_app. split; [done|]. constructor; [|done].
  unfold true_sentence. simpl. by rewrite len_inter_singleton_out.
Qed.

(** A truthful observation keeps the knowledge base sound, at every
    stage of the call. *)
Lemma sound_stages o cell (count : Z) ai :
  valid_order o → truthful L ai cell count →
  sound L ai → Forall (sound L) (stages o cell count ai).
Proof.
  intros Hv [Hc Hcount] Hai.
  assert (H1 : sound L (record_move cell ai)) by by apply sound_record_move.
  assert (H2 : sound L (after_observation_sentence cell count ai)).
  { unfold after_observation_sentence. apply sound_extend; [done|].
    constructor; [exact Hcount | done]. }
  assert (H3 : sound L (before_subset_pass o cell count ai)).
  { unfold before_subset_pass. apply sound_direct_marks; [done | exact Hcount | done]. }
  assert (H4 : sound L (before_reduce o cell count ai)).
  { rewrite before_reduce_unfold. by apply sound_infer_subsets. }
  assert (H5 : sound L (subset_pass o (before_subset_pass o cell count ai)).1)
    by by apply sound_subset_pass.
  assert (H6 : sound L (add_knowledge o cell count ai)).
  { rewrite add_knowledge_unfold. by apply sound_reduce. }
  unfold stages. repeat (apply Forall_cons_2; [assumption|]). apply Forall_nil_2.
Qed.

Lemma sound_add_knowledge o cell (count : Z) ai :
  valid_order o → truthful L ai cell count →
  sound L ai → sound L (add_knowledge o cell count ai).
Proof.
  intros Hv Ht Hai. pose proof (sound_stages o cell count ai Hv Ht Hai) as Hst.
  rewrite Forall_forall in Hst. apply Hst.
  by apply (list_elem_of_lookup_2 _ 5%nat).
Qed.

Lemma sound_init (height width : Z) : sound L (init height width).
Proof. split_and!; simpl; [set_solver | set_solver | done]. Qed.

Lemma sound_reachable (height width : Z) ai :
  reachable_truthfully L height width ai → sound L ai.
Proof.
  induction 1 as [|o cell count ai Hv _ IH Htruth]; [apply sound_init|].
  by apply sound_add_knowledge.
Qed.

End Soundness.

(** ** Disjoint sets and counts in range *)

(** A run of two truthful observations on a 1x3 grid whose only mine is
    at [(0,2)]. *)
Lemma sample_truthful_run :
  reachable_truthfully {[ (0, 2) ]} 1 3
    (add_knowledge canonical (0, 0) 0 (add_knowledge canonical (0, 1) 1 (init 1 3))).
Proof.
  apply truthfully_step; [apply canonical_valid | |].
  - apply truthfully_step; [apply canonical_valid | apply truthfully_init |].
    split; compute_done.
  - split; compute_done.
Qed.

(** C1, as the claim states it, fails: the code never checks a mark
    against the other set.  On a 1x2 grid, observing [(0,0)] with count 0
    and then [(0,1)] with count 1 leaves [(0,0)] both in [mines] and in
    [safes]. *)
Lemma known_sets_overlap :
  let ai := add_knowledge canonical (0, 1) 1
              (add_knowledge canonical (0, 0) 0 (init 1 2)) in
  reachable 1 2 ai ∧ (0, 0) ∈ mines ai ∧ (0, 0) ∈ safes ai.
Proof.
  cbv zeta. split; [|compute_done].
  do 2 (apply reachable_step; [apply canonical_valid|]). apply reachable_init.
Qed.

(** C1, amended.  In every state reached from a fresh knowledge base by
    [add_knowledge] calls whose observations are truthful for one mine
    layout (the observed cell holds no mine and the count is the number
    of mines among its neighbours on the grid), [mines] and [safes] are
    disjoint: every cell of [mines] holds a mine and no cell of [safes]
    does.  They are also disjoint at every stage of a further truthful
    call. *)
Theorem known_sets_disjoint_truthful (L : gset Cell) (height width : Z) (ai : AI) :
  reachable_truthfully L height width ai →
  (mines ai ∩ safes ai = ∅ ∧ mines ai ⊆ L ∧ safes ai ## L) ∧
  (∀ o cell count, valid_order o → truthful L ai cell count →
     Forall (λ st, mines st ∩ safes st = ∅) (stages o cell count ai)).
Proof.
  intros Hr. pose proof (sound_reachable L height width ai Hr) as Hai. split.
  - destruct Hai as (Hs & Hm & _). split_and!; [set_solver | done | done].
  - intros o cell count Hv Ht.
    eapply Forall_impl; [by apply (sound_stages L o cell count ai)|].
    intros st (Hs & Hm & _). set_solver.
Qed.

Lemma known_sets_disjoint_truthful_witness :
  let ai := add_knowledge canonical (0, 0) 0
              (add_knowledge canonical (0, 1) 1 (init 1 3)) in
  (mines ai ∩ safes ai = ∅ ∧ mines ai ⊆ {[ (0, 2) ]} ∧ safes ai ## {[ (0, 2) ]}) ∧
  (∀ o cell count, valid_order o → truthful {[ (0, 2) ]} ai cell count →
     Forall (λ st, mines st ∩ safes st = ∅) (stages o cell count ai)).
Proof.
  exact (known_sets_disjoint_truthful {[ (0, 2) ]} 1 3 _ sample_truthful_run).
Defined.

(** C2, as the claim states it, fails: the counts are taken as given.
    On a 2x3 grid, observing [(0,0)] with count 2 and then [(0,1)] with
    count 1 (each count within the number of neighbours of its cell)
    makes the subset pass derive [{(0,0), (0,2), (1,2)} = -1], which is
    in the pool when [add_knowledge] returns. *)
Lemma negative_count_in_pool :
  let ai := add_knowledge canonical (0, 1) 1
              (add_knowledge canonical (0, 0) 2 (init 2 3)) in
  reachable 2 3 ai ∧
  Sentence.Make {[ (0, 0); (0, 2); (1, 2) ]} (-1) ∈ knowledge ai ∧
  2 ≤ len (neighbor_cells (init 2 3) (0, 0)) ∧
  1 ≤ len (neighbor_cells (init 2 3) (0, 1)).
Proof.
  cbv zeta. split; [|compute_done].
  do 2 (apply reachable_step; [apply canonical_valid|]). apply reachable_init.
Qed.

(** C2, amended.  In every state reached from a fresh knowledge base by
    [add_knowledge] calls whose observations are truthful for one mine
    layout, every sentence of the pool satisfies [0 ≤ count ≤ |cells|]:
    its count is the number of mines among its cells.  The same holds of
    the pool at every stage of a further truthful call, and of the
    sentences its subset pass derives. *)
Theorem pool_counts_in_range_truthful (L : gset Cell) (height width : Z) (ai : AI) :
  reachable_truthfully L height width ai →
  Forall count_in_range (knowledge ai) ∧
  (∀ o cell count, valid_order o → truthful L ai cell count →
     Forall (λ st, Forall count_in_range (knowledge st)) (stages o cell count ai) ∧
     Forall count_in_range (subset_pass o (before_subset_pass o cell count ai)).2).
Proof.
  intros Hr. pose proof (sound_reachable L height width ai Hr) as Hai.
  assert (Hrange : ∀ K, Forall (true_sentence L) K → Forall count_in_range K).
  { intros K HK. eapply Forall_impl; [exact HK|].
    intros s. apply true_count_in_range. }
  split.
  - apply Hrange. by destruct Hai as (_ & _ & Hk).
  - intros o cell count Hv Ht.
    pose proof (sound_stages L o cell count ai Hv Ht Hai) as Hst. split.
    + eapply Forall_impl; [exact Hst|]. intros st (_ & _ & Hk). by apply Hrange.
    + apply Hrange. apply sound_subset_pass; [done|].
      rewrite Forall_forall in Hst. apply Hst.
      by apply (list_elem_of_lookup_2 _ 2%nat).
Qed.

Lemma pool_counts_in_range_truthful_witness :
  let ai := add_knowledge canonical (0, 0) 0
              (add_knowledge canonical (0, 1) 1 (init 1 3)) in
  Forall count_in_range (knowledge ai) ∧
  (∀ o cell count, valid_order o → truthful {[ (0, 2) ]} ai cell count →
     Forall (λ st, Forall count_in_range (knowledge st)) (stages o cell count ai) ∧
     Forall count_in_range (subset_pass o (before_subset_pass o cell count ai)).2).
Proof.
  exact (pool_counts_in_range_truthful {[ (0, 2) ]} 1 3 _ sample_truthful_run).
Defined.

(** ** One pass of subset inference *)

Section OnePass.
Implicit Types (ai : AI) (o : Order) (K new : list Sentence) (s : Sentence)
               (X : gset Cell) (c cell : Cell) (cs : list Cell).

Lemma valid_order_covers o (site : Site) X :
  valid_order o → X ⊆ list_to_set (iter_cells o site X).
Proof.
  intros Hv c Hc. apply elem_of_list_to_set. by apply valid_order_visits.
Qed.

Lemma valid_order_nil o (site : Site) X :
  valid_order o → iter_cells o site X = [] → X = ∅.
Proof.
  intros Hv Hnil. apply set_eq. intros c.
  rewrite <- (valid_order_visits o site X c Hv), Hnil. set_solver.
Qed.

(** Lines 221-228 mark every neighbour when the count is 0 or the
    number of neighbours. *)
Lemma direct_marks_covers o X (count : Z) ai :
  valid_order o →
  (count = 0 → X ⊆ safes (direct_marks o X count ai)) ∧
  (count = len X → X ⊆ mines (direct_marks o X count ai)).
Proof.
  intros Hv. rewrite direct_marks_eq. cbv zeta.
  destruct (decide (iter_cells o AtNeighbors X = [])) as [Hnil|Hne].
  { apply (valid_order_nil o _ _ Hv) in Hnil. subst X. split; set_solver. }
  destruct (decide (count = 0)) as [Hz|Hz].
  - split; intros Hc; simpl.
    + destruct (mark_all_safe_sets (iter_cells o AtNeighbors X) ai) as (-> & _ & _).
      pose proof (valid_order_covers o AtNeighbors X Hv). set_solver.
    + assert (X = ∅) as ->; [|set_solver].
      apply len_not_pos. lia.
  - split; [done|]. intros Hc. rewrite decide_True by done. simpl.
    destruct (mark_all_mine_sets (iter_cells o AtNeighbors X) ai) as (-> & _ & _).
    pose proof (valid_order_covers o AtNeighbors X Hv). set_solver.
Qed.

(** Lines 248-253 do the same for a derived sentence. *)
Lemma derived_marks_covers o (site : Site) s ai :
  valid_order o →
  let ai' := derived_marks (iter_cells o site (Sentence.cells s)) s ai in
  (Sentence.count s = 0 → Sentence.cells s ⊆ safes ai') ∧
  (Sentence.count s = len (Sentence.cells s) → Sentence.cells s ⊆ mines ai').
Proof.
  intros Hv. cbv zeta. unfold derived_marks.
  pose proof (valid_order_covers o site (Sentence.cells s) Hv) as Hcov.
  split; intros Hc.
  - rewrite (decide_True (P := Sentence.count s = 0)) by done.
    assert (Hsafe : Sentence.cells s ⊆
              safes (mark_all_safe (iter_cells o site (Sentence.cells s)) ai)).
    { destruct (mark_all_safe_sets (iter_cells o site (Sentence.cells s)) ai)
        as (-> & _ & _). set_solver. }
    case_decide; [|done].
    destruct (grows_mark_all_mine (iter_cells o site (Sentence.cells s))
                (mark_all_safe (iter_cells o site (Sentence.cells s)) ai))
      as (_ & _ & _ & _ & Hg).
    set_solver.
  - rewrite (decide_True (P := Sentence.count s = len (Sentence.cells s))) by done.
    match goal with |- _ ⊆ mines (mark_all_mine ?cs ?a) =>
      destruct (mark_all_mine_sets cs a) as (-> & _ & _) end.
    set_solver.
Qed.

(** What holds, all along the pass, of the sentences derived so far. *)
Lemma subset_pass_marks o ai :
  valid_order o →
  ∀ s, s ∈ (subset_pass o ai).2 →
    Sentence.cells s ≠ ∅ ∧
    (Sentence.count s = 0 → Sentence.cells s ⊆ safes (subset_pass o ai).1) ∧
    (Sentence.count s = len (Sentence.cells s) →
     Sentence.cells s ⊆ mines (subset_pass o ai).1).
Proof.
  intros Hv.
  apply (subset_pass_invariant (λ st, ∀ s, s ∈ st.2 →
    Sentence.cells s ≠ ∅ ∧
    (Sentence.count s = 0 → Sentence.cells s ⊆ safes st.1) ∧
    (Sentence.count s = len (Sentence.cells s) → Sentence.cells s ⊆ mines st.1))).
  { intros s Hs. by apply elem_of_nil in Hs. }
  intros i j [ai' new] Hinv.
  destruct (pair_step_cases o i j ai' new)
    as [-> | (sen & sentence & _ & _ & _ & Hsub & ->)]; [done|].
  simpl in *. intros s Hs. apply elem_of_app in Hs as [Hs | Hs].
  - destruct (Hinv s Hs) as (Hne & Hz & Hf).
    destruct (grows_derived_marks
                (iter_cells o (AtPair i j) (Sentence.cells (derived sen sentence)))
                (derived sen sentence) ai') as (_ & _ & _ & Hgm & Hgs).
    split_and!; [done | |].
    + intros Hc. specialize (Hz Hc). set_solver.
    + intros Hc. specialize (Hf Hc). set_solver.
  - apply list_elem_of_singleton in Hs as ->. split.
    + simpl. destruct Hsub as [Hsub Hnsub]. intros Hempty.
      apply Hnsub. set_solver.
    + by apply derived_marks_covers.
Qed.

(** The pass is not idle: when the pool it starts from holds distinct
    sentences [A] and [B] with the cells of [A] strictly among those of
    [B], it derives at least one sentence. *)
Lemma subset_pass_derives o ai (i j : nat) (A B : Sentence) :
  knowledge ai !! i = Some A → knowledge ai !! j = Some B →
  A ≠ B → Sentence.cells A ⊂ Sentence.cells B →
  (subset_pass o ai).2 ≠ [].
Proof.
  intros Hi Hj Hne Hsub. unfold subset_pass.
  set (n := length (knowledge ai)).
  set (I := λ st : AI * list Sentence, st = (ai, []) ∨ st.2 ≠ []).
  set (Q := λ st : AI * list Sentence, st.2 ≠ []).
  assert (HQstep : ∀ st i' j', Q st → Q (pair_step o i' j' st)).
  { intros [ai' new] i' j' Hq. unfold Q in *. simpl in Hq.
    destruct (pair_step_cases o i' j' ai' new)
      as [-> | (? & ? & _ & _ & _ & _ & ->)]; [done|].
    simpl. by destruct new. }
  assert (HIstep : ∀ st i' j', I st → I (pair_step o i' j' st)).
  { intros st i' j' [-> | Hq]; [|right; by apply HQstep].
    destruct (pair_step_cases o i' j' ai [])
      as [-> | (? & ? & _ & _ & _ & _ & ->)]; [by left | by right]. }
  assert (Hhit : ∀ st, I st → Q (pair_step o i j st)).
  { intros st [-> | Hq]; [|by apply HQstep].
    unfold Q, pair_step. rewrite Hi, Hj.
    rewrite decide_False by done. rewrite decide_True by done. done. }
  assert (Hi' : i ∈ seq 0 n) by (apply elem_of_seq; apply lookup_lt_Some in Hi; lia).
  assert (Hj' : j ∈ seq 0 n) by (apply elem_of_seq; apply lookup_lt_Some in Hj; lia).
  apply (foldl_reaches I Q _ _ i); [done | by left | | |].
  - intros st i' Hst. apply (foldl_invariant I); [done|].
    intros st' j' _. apply HIstep.
  - intros st Hst. apply (foldl_reaches I Q _ _ j); [done.. | | |].
    + intros st' j'. apply HIstep.
    + done.
    + intros st' j'. apply HQstep.
  - intros st i' Hst. apply (foldl_invariant Q); [done|].
    intros st' j' _. apply HQstep.
Qed.

End OnePass.

Lemma neighbor_cells_grows (ai ai' : AI) (c : Cell) :
  grows ai ai' → neighbor_cells ai' c = neighbor_cells ai c.
Proof.
  intros (Hh & Hw & _). unfold neighbor_cells, in_bounds. by rewrite Hh, Hw.
Qed.

(** What a call does with its own observation, whatever the order: the
    cell is a move and is safe; with count 0 every neighbour is safe;
    with a count equal to the number of neighbours every neighbour is a
    mine. *)
Lemma observation_marks (o : Order) (cell : Cell) (count : Z) (ai : AI) :
  valid_order o →
  cell ∈ moves_made (add_knowledge o cell count ai) ∧
  cell ∈ safes (add_knowledge o cell count ai) ∧
  (count = 0 → neighbor_cells ai cell ⊆ safes (add_knowledge o cell count ai)) ∧
  (count = len (neighbor_cells ai cell) →
   neighbor_cells ai cell ⊆ mines (add_knowledge o cell count ai)).
Proof.
  intros Hv.
  set (pre := before_subset_pass o cell count ai).
  assert (Hg : grows pre (add_knowledge o cell count ai)).
  { rewrite add_knowledge_unfold, before_reduce_unfold.
    eapply grows_trans; [apply grows_infer_subsets | apply grows_set_knowledge]. }
  assert (Hg' : grows (record_move cell ai) pre).
  { unfold pre, before_subset_pass, after_observation_sentence.
    eapply grows_trans; [apply grows_set_knowledge | apply grows_direct_marks]. }
  pose proof (grows_trans _ _ _ Hg' Hg) as (_ & _ & Hmv & _ & Hsa).
  destruct Hg as (_ & _ & _ & Hmi' & Hsa').
  destruct (grows_record_move cell ai) as (_ & Hm & Hs).
  destruct (direct_marks_covers o (neighbor_cells (record_move cell ai) cell) count
              (after_observation_sentence cell count ai) Hv) as [Hz Hf].
  change (neighbor_cells (record_move cell ai) cell)
    with (neighbor_cells ai cell) in Hz, Hf.
  fold pre in Hz, Hf.
  split_and!.
  - by apply Hmv.
  - by apply Hsa.
  - intros Hc. transitivity (safes pre); [by apply Hz | done].
  - intros Hc. transitivity (mines pre); [by apply Hf | done].
Qed.

(** The sweep of lines 257-263 calls [set.union] and drops its result
    ([union_known_id]), so it marks nothing.  On a 1x3 grid, after
    [(0,1)] was observed with count 1 and [(0,0)] with count 0, the pool
    holds [{(0,2)} = 1] while [(0,2)] is not in [mines]. *)
Lemma discarded_union_leaves_mine_unmarked :
  let ai := add_knowledge canonical (0, 0) 0
              (add_knowledge canonical (0, 1) 1 (init 1 3)) in
  Sentence.Make {[ (0, 2) ]} 1 ∈ knowledge ai ∧ ((0, 2) ∉ mines ai) ∧
  ¬ direct_closed ai.
Proof.
  cbv zeta. split_and!; try compute_done.
Qed.

(** ** The counterexamples and the iteration order *)

(** The overlap of [mines] and [safes] on the 1x2 grid arises whatever
    the order in which the sets are iterated. *)
Lemma overlap_for_every_order (o1 o2 : Order) :
  valid_order o1 → valid_order o2 →
  let ai := add_knowledge o2 (0, 1) 1 (add_knowledge o1 (0, 0) 0 (init 1 2)) in
  (0, 0) ∈ mines ai ∧ (0, 0) ∈ safes ai.
Proof.
  intros Hv1 Hv2. cbv zeta.
  set (ai1 := add_knowledge o1 (0, 0) 0 (init 1 2)).
  destruct (observation_marks o1 (0, 0) 0 (init 1 2) Hv1) as (_ & Hsafe & _).
  fold ai1 in Hsafe.
  destruct (observation_marks o2 (0, 1) 1 ai1 Hv2) as (_ & _ & _ & Hfull).
  assert (HN : neighbor_cells ai1 (0, 1) = {[ (0, 0) ]}).
  { unfold ai1. rewrite (neighbor_cells_grows (init 1 2)) by apply grows_add_knowledge.
    compute_done. }
  rewrite HN in Hfull. split.
  - apply Hfull; [compute_done | set_solver].
  - destruct (grows_add_knowledge o2 (0, 1) 1 ai1) as (_ & _ & _ & _ & Hg).
    by apply Hg.
Qed.

(** The other runs give the same facts when every set is iterated in the
    reverse order. *)
Lemma counterexamples_reversed_order :
  (let ai := add_knowledge reversed (0, 1) 1
               (add_knowledge reversed (0, 0) 2 (init 2 3)) in
   Sentence.Make {[ (0, 0); (0, 2); (1, 2) ]} (-1) ∈ knowledge ai) ∧
  (let ai := add_knowledge reversed (0, 0) 0
               (add_knowledge reversed (0, 1) 1 (init 1 3)) in
   Sentence.Make {[ (0, 2) ]} 1 ∈ knowledge ai ∧ ((0, 2) ∉ mines ai)) ∧
  (let ai := add_knowledge reversed (0, 1) 1
               (add_knowledge reversed (0, 0) 0 (init 2 3)) in
   let A := Sentence.Make {[ (1, 0) ]} 0 in
   let B := Sentence.Make {[ (0, 2); (1, 0); (1, 1); (1, 2) ]} 1 in
   A ∈ knowledge ai ∧ B ∈ knowledge ai ∧ (derived A B ∉ knowledge ai)).
Proof. cbv zeta. compute_done. Qed.


(** * The game *)

(** ** Python lists *)

Section PyLists.
Context {A : Type}.
Implicit Types (l : list A) (i : Z) (x : A).

Lemma py_get_nonneg l i : 0 ≤ i → Minesweeper.py_get l i = l !! Z.to_nat i.
Proof. intros Hi. unfold Minesweeper.py_get. by rewrite decide_True. Qed.

Lemma py_get_negative l i :
  i < 0 → Minesweeper.py_get l i = Minesweeper.py_get l (Z.of_nat (length l) + i) ∨
          (Z.of_nat (length l) + i < 0 ∧ Minesweeper.py_get l i = None).
Proof.
  intros Hi. destruct (decide (0 ≤ Z.of_nat (length l) + i)) as [Hin|Hout].
  - left. rewrite (py_get_nonneg l (Z.of_nat (length l) + i)) by done.
    unfold Minesweeper.py_get. rewrite decide_False by lia. by rewrite decide_True.
  - right. split; [lia|].
    unfold Minesweeper.py_get. rewrite decide_False by lia. by rewrite decide_False.
Qed.

(** An index is answered exactly from [-len(l)] up to [len(l) - 1]. *)
Lemma py_get_is_Some l i :
  is_Some (Minesweeper.py_get l i) ↔ - Z.of_nat (length l) ≤ i < Z.of_nat (length l).
Proof.
  unfold Minesweeper.py_get. repeat case_decide; rewrite ?lookup_lt_is_Some.
  - lia.
  - lia.
  - split; [by intros [? [=]] | lia].
Qed.

Lemma py_set_nonneg l i x :
  0 ≤ i < Z.of_nat (length l) → Minesweeper.py_set l i x = Some (<[Z.to_nat i := x]> l).
Proof.
  intros Hi. unfold Minesweeper.py_set.
  rewrite decide_True by lia. by rewrite decide_True by lia.
Qed.

End PyLists.

(** ** The board *)

Lemma foldl_append_const {A B} (x : A) (l : list B) (acc : list A) :
  foldl (λ acc _, acc ++ [x]) acc l = acc ++ replicate (length l) x.
Proof.
  revert acc. induction l as [|y l IH]; intros acc; simpl.
  - by rewrite app_nil_r.
  - rewrite IH. by rewrite <- app_assoc.
Qed.

(** Lines 18-23 build [height] rows of [width] squares, none a mine. *)
Lemma empty_board_replicate (height width : Z) :
  Minesweeper.empty_board height width
  = replicate (Z.to_nat height) (replicate (Z.to_nat width) false).
Proof.
  unfold Minesweeper.empty_board. cbv zeta.
  rewrite (foldl_append_const (foldl (λ row _, row ++ [false]) [] (seqZ 0 width))).
  rewrite (foldl_append_const false). by rewrite !length_seqZ.
Qed.

Lemma lookup2_insert (b : list (list bool)) (i j : nat) (row : list bool) (i' j' : nat) :
  b !! i = Some row → (j < length row)%nat →
  (<[i := <[j := true]> row]> b !! i') ≫= (λ r, r !! j')
  = if decide (i' = i ∧ j' = j) then Some true else (b !! i') ≫= (λ r, r !! j').
Proof.
  intros Hrow Hj. pose proof (lookup_lt_Some _ _ _ Hrow) as Hi.
  destruct (decide (i' = i)) as [->|Hne].
  - rewrite list_lookup_insert_eq by done. rewrite Hrow. simpl.
    destruct (decide (j' = j)) as [->|Hne'].
    + rewrite list_lookup_insert_eq by done. by rewrite decide_True.
    + rewrite list_lookup_insert_ne by done. rewrite decide_False; [done|]. tauto.
  - rewrite list_lookup_insert_ne by done. rewrite decide_False; [done|]. tauto.
Qed.

Section Board.
Implicit Types (g : Minesweeper.t) (c : Cell) (i j : Z).

Lemma board_at_nonneg g i j :
  0 ≤ i → 0 ≤ j →
  Minesweeper.board_at g i j
  = (Minesweeper.board g !! Z.to_nat i) ≫= (λ r, r !! Z.to_nat j).
Proof.
  intros Hi Hj. unfold Minesweeper.board_at. rewrite py_get_nonneg by done.
  destruct (Minesweeper.board g !! Z.to_nat i) as [row|]; simpl; [|done].
  by rewrite py_get_nonneg.
Qed.

Lemma shaped_row g i :
  shaped g → 0 ≤ i < Minesweeper.height g →
  ∃ row, Minesweeper.board g !! Z.to_nat i = Some row ∧
         length row = Z.to_nat (Minesweeper.width g).
Proof.
  intros [Hlen Hrows] Hi.
  destruct (lookup_lt_is_Some_2 (Minesweeper.board g) (Z.to_nat i)) as [row Hrow]; [lia|].
  exists row. split; [done|].
  rewrite Forall_forall in Hrows. apply Hrows. by eapply list_elem_of_lookup_2.
Qed.

(** Placing a mine on a free square of a consistent game. *)
Lemma place_one g i j :
  consistent g → on_board g (i, j) → (i, j) ∉ Minesweeper.mines g →
  ∃ board',
    Minesweeper.set_board g i j = Some board' ∧
    consistent (Minesweeper.Make (Minesweeper.height g) (Minesweeper.width g)
                  ({[ (i, j) ]} ∪ Minesweeper.mines g) board'
                  (Minesweeper.mines_found g)) ∧
    len ({[ (i, j) ]} ∪ Minesweeper.mines g) = len (Minesweeper.mines g) + 1.
Proof.
  intros (Hshape & Hboard & Hmines) [Hi Hj] Hfree. simpl in Hi, Hj.
  destruct (shaped_row g i Hshape Hi) as (row & Hrow & Hlen).
  destruct Hshape as [Hlenb Hrows].
  exists (<[Z.to_nat i := <[Z.to_nat j := true]> row]> (Minesweeper.board g)).
  split_and!.
  - unfold Minesweeper.set_board. rewrite py_get_nonneg by lia. rewrite Hrow. simpl.
    rewrite py_set_nonneg by lia. simpl. by rewrite py_set_nonneg by lia.
  - split_and!.
    + split; simpl.
      * by rewrite length_insert.
      * apply Forall_insert; [done|]. by rewrite length_insert.
    + intros [i' j'] [Hi' Hj']. simpl in Hi', Hj'. simpl.
      rewrite board_at_nonneg by lia. simpl.
      rewrite lookup2_insert by first [done | lia].
      destruct (decide (Z.to_nat i' = Z.to_nat i ∧ Z.to_nat j' = Z.to_nat j)) as [[Hei Hej]|Hne].
      * assert (i' = i) as -> by lia. assert (j' = j) as -> by lia.
        rewrite bool_decide_eq_true_2; [done|]. set_solver.
      * specialize (Hboard (i', j') ltac:(by split)). simpl in Hboard.
        rewrite board_at_nonneg in Hboard by lia. rewrite Hboard.
        f_equal. apply bool_decide_ext.
        assert ((i', j') ≠ (i, j)) by (intros [= -> ->]; tauto).
        set_solver.
    + intros c Hc. apply elem_of_union in Hc as [Hc|Hc].
      * apply elem_of_singleton in Hc as ->. by split.
      * by apply Hmines.
  - unfold len. rewrite (size_union (C:=gset Cell) {[ (i, j) ]} (Minesweeper.mines g))
      by set_solver.
    rewrite size_singleton. lia.
Qed.

End Board.

(** ** Placing the mines *)

Section Placement.
Implicit Types (g : Minesweeper.t) (draws : list (nat * nat)) (target : Z).

Lemma consistent_empty (height width : Z) :
  consistent (Minesweeper.Make height width ∅
                (Minesweeper.empty_board height width) ∅).
Proof.
  rewrite empty_board_replicate. split_and!.
  - split; simpl; [by rewrite length_replicate|].
    apply Forall_replicate. by rewrite length_replicate.
  - intros [i j] [Hi Hj]. simpl in *. rewrite board_at_nonneg by lia. simpl.
    rewrite lookup_replicate_2 by lia. simpl.
    rewrite lookup_replicate_2 by lia. done.
  - intros c Hc. simpl in Hc. set_solver.
Qed.

(** What the placement loop has done when it stops, for each way of
    stopping. *)
Lemma place_mines_spec target draws g :
  consistent g →
  match Minesweeper.place_mines target draws g with
  | Minesweeper.Returns g' =>
      consistent g' ∧
      Minesweeper.height g' = Minesweeper.height g ∧
      Minesweeper.width g' = Minesweeper.width g ∧
      Minesweeper.mines_found g' = Minesweeper.mines_found g ∧
      Minesweeper.mines g ⊆ Minesweeper.mines g' ∧
      len (Minesweeper.mines g') = target
  | Minesweeper.Raises e =>
      e = Minesweeper.ValueError ∧
      (Minesweeper.height g ≤ 0 ∨ Minesweeper.width g ≤ 0) ∧
      draws ≠ [] ∧ len (Minesweeper.mines g) ≠ target
  | Minesweeper.OutOfDraws g' =>
      consistent g' ∧
      Minesweeper.height g' = Minesweeper.height g ∧
      Minesweeper.width g' = Minesweeper.width g ∧
      Minesweeper.mines g ⊆ Minesweeper.mines g' ∧
      len (Minesweeper.mines g') ≠ target ∧
      (∀ d, d ∈ draws →
            cell_of_draw (Minesweeper.height g) (Minesweeper.width g) d
              ∈ Minesweeper.mines g') ∧
      (len (Minesweeper.mines g) ≤ target → len (Minesweeper.mines g') < target)
  end.
Proof.
  revert g. induction draws as [|[ri rj] draws IH]; intros g Hg; simpl.
  - case_decide as Hlen; [by split_and!|].
    split_and!; [done.. | | lia]. intros d Hd. by apply elem_of_nil in Hd.
  - case_decide as Hlen; [by split_and!|].
    unfold Minesweeper.randrange.
    destruct (decide (0 < Minesweeper.height g)) as [Hh|Hh];
      [|split_and!; [done | left; lia | done | done]].
    destruct (decide (0 < Minesweeper.width g)) as [Hw|Hw];
      [|split_and!; [done | right; lia | done | done]].
    set (i := Z.of_nat ri `mod` Minesweeper.height g).
    set (j := Z.of_nat rj `mod` Minesweeper.width g).
    assert (Hon : on_board g (i, j)).
    { split; simpl; apply Z.mod_pos_bound; lia. }
    pose proof Hg as (_ & Hboard & _).
    specialize (Hboard (i, j) Hon). simpl in Hboard.
    cbv beta iota. rewrite Hboard.
    destruct (decide ((i, j) ∈ Minesweeper.mines g)) as [Hin|Hfree].
    + rewrite bool_decide_eq_true_2 by done.
      specialize (IH g Hg).
      destruct (Minesweeper.place_mines target draws g) as [g'|e|g'].
      * done.
      * destruct IH as (_ & [?|?] & _); lia.
      * destruct IH as (? & ? & ? & Hsub & ? & Hdraws & ?).
        split_and!; [done.. | | done].
        intros d Hd. apply elem_of_cons in Hd as [->|Hd]; [|by apply Hdraws].
        apply Hsub. exact Hin.
    + rewrite bool_decide_eq_false_2 by done.
      destruct (place_one g i j Hg Hon Hfree) as (board' & -> & Hg1 & Hlen1).
      specialize (IH _ Hg1). simpl in IH.
      destruct (Minesweeper.place_mines target draws _) as [g'|e|g'].
      * destruct IH as (? & ? & ? & ? & Hsub & ?).
        split_and!; [done.. | | done]. set_solver.
      * destruct IH as (_ & [?|?] & _); lia.
      * destruct IH as (? & ? & ? & Hsub & ? & Hdraws & Hlt).
        split_and!; [done.. | | | | ].
        -- set_solver.
        -- done.
        -- intros d Hd. apply elem_of_cons in Hd as [->|Hd]; [|by apply Hdraws].
           apply Hsub. unfold cell_of_draw. simpl. set_solver.
        -- intros Hle. apply Hlt. lia.
Qed.

End Placement.

(** ** The size of the grid *)

Lemma size_row_loop (i : Z) (lj : list Z) (acc : gset Cell) :
  NoDup lj → (∀ j, j ∈ lj → (i, j) ∉ acc) →
  size (foldl (λ acc j, {[ (i, j) ]} ∪ acc) acc lj) = (size acc + length lj)%nat.
Proof.
  intros Hnd. revert acc. induction Hnd as [|j lj Hj Hnd IH]; intros acc Hfresh; simpl.
  - lia.
  - rewrite IH.
    + rewrite (size_union (C:=gset Cell) {[ (i, j) ]} acc).
      * rewrite size_singleton. lia.
      * apply disjoint_singleton_l. apply Hfresh. left.
    + intros j' Hj'. rewrite elem_of_union, elem_of_singleton.
      intros [[= ->]|Hacc]; [done|]. apply (Hfresh j'); [by right | done].
Qed.

Lemma size_grid_loop (li lj : list Z) (acc : gset Cell) :
  NoDup li → NoDup lj → (∀ i j, i ∈ li → j ∈ lj → (i, j) ∉ acc) →
  size (foldl (λ acc i, foldl (λ acc j, {[ (i, j) ]} ∪ acc) acc lj) acc li)
  = (size acc + length li * length lj)%nat.
Proof.
  intros Hnd Hndj. revert acc.
  induction Hnd as [|i li Hi Hnd IH]; intros acc Hfresh; simpl.
  - lia.
  - rewrite IH.
    + rewrite size_row_loop; [lia | done |].
      intros j Hj. apply Hfresh; [left | done].
    + intros i' j Hi' Hj Hin.
      pose proof (elem_of_grid_loop [i] lj acc (i', j)) as Hloop. simpl in Hloop.
      apply Hloop in Hin as [Hacc | [Hii _]].
      * apply (Hfresh i' j); [by right | done | done].
      * apply list_elem_of_singleton in Hii as ->. done.
Qed.

(** A grid has [height * width] cells, none when a side is not positive. *)
Lemma len_all_cells (ai : AI) :
  len (all_cells ai) = Z.of_nat (Z.to_nat (height ai) * Z.to_nat (width ai)).
Proof.
  unfold len, all_cells. rewrite size_grid_loop.
  - rewrite size_empty, !length_seqZ. lia.
  - apply NoDup_seqZ.
  - apply NoDup_seqZ.
  - intros i j _ _. set_solver.
Qed.

Lemma on_board_player (g : Minesweeper.t) (c : Cell) :
  on_board g c ↔ c ∈ all_cells (player g).
Proof. by rewrite elem_of_all_cells. Qed.

Lemma len_mines_le (g : Minesweeper.t) :
  consistent g →
  0 ≤ len (Minesweeper.mines g)
    ≤ Z.of_nat (Z.to_nat (Minesweeper.height g) * Z.to_nat (Minesweeper.width g)).
Proof.
  intros (_ & _ & Hmines).
  assert (Hsub : Minesweeper.mines g ⊆ all_cells (player g)).
  { intros c Hc. apply on_board_player. by apply Hmines. }
  apply subseteq_size in Hsub.
  pose proof (len_all_cells (player g)) as Hlen. unfold len in *. simpl in Hlen. lia.
Qed.

(** ** [Minesweeper.__init__] *)

(** X1.  When [Minesweeper(height, width, mines)] returns, the game has
    the size asked for, exactly [mines] mines, all of them on the board,
    a board of [height] rows of [width] squares that holds [True] exactly
    at the mines, and no mine found yet.  So it can only return when
    [mines] is between 0 and the number of squares of the board,
    [max(height, 0) * max(width, 0)]. *)
Theorem minesweeper_init_returns (height width mines : Z)
    (draws : list (nat * nat)) (g : Minesweeper.t) :
  Minesweeper.init height width mines draws = Minesweeper.Returns g →
  Minesweeper.height g = height ∧ Minesweeper.width g = width ∧
  consistent g ∧
  len (Minesweeper.mines g) = mines ∧
  Minesweeper.mines_found g = ∅ ∧
  0 ≤ mines ≤ Z.of_nat (Z.to_nat height * Z.to_nat width).
Proof.
  unfold Minesweeper.init. intros Hret.
  pose proof (place_mines_spec mines draws _ (consistent_empty height width)) as Hspec.
  rewrite Hret in Hspec. simpl in Hspec.
  destruct Hspec as (Hg & Hh & Hw & Hf & _ & Hlen).
  pose proof (len_mines_le g Hg) as Hle. rewrite Hh, Hw, Hlen in Hle. simpl in Hle.
  split_and!; first [done | lia].
Qed.

Lemma minesweeper_init_returns_witness :
  let g := Minesweeper.Make 2 3 {[ (0, 1); (1, 1) ]}
             [[false; true; false]; [false; true; false]] ∅ in
  Minesweeper.height g = 2 ∧ Minesweeper.width g = 3 ∧
  consistent g ∧
  len (Minesweeper.mines g) = 2 ∧
  Minesweeper.mines_found g = ∅ ∧
  0 ≤ 2 ≤ Z.of_nat (Z.to_nat 2 * Z.to_nat 3).
Proof.
  apply (minesweeper_init_returns 2 3 2 [(4, 4); (1, 1); (3, 5)]%nat).
  vm_compute. reflexivity.
Defined.

(** X2.  [Minesweeper(height, width, mines)] never raises [IndexError],
    and it raises [ValueError] (from [random.randrange]) exactly when a
    mine has to be placed on a board with a side that is not positive. *)
Theorem minesweeper_init_raises (height width mines : Z) (draws : list (nat * nat)) :
  Minesweeper.init height width mines draws
    ≠ Minesweeper.Raises Minesweeper.IndexError ∧
  (Minesweeper.init height width mines draws
     = Minesweeper.Raises Minesweeper.ValueError
   ↔ mines ≠ 0 ∧ draws ≠ [] ∧ (height ≤ 0 ∨ width ≤ 0)).
Proof.
  unfold Minesweeper.init.
  pose proof (place_mines_spec mines draws _ (consistent_empty height width)) as Hspec.
  assert (Hlen0 : len (∅ : gset Cell) = 0) by (unfold len; by rewrite size_empty).
  split.
  - intros Hraise. rewrite Hraise in Hspec. by destruct Hspec as [[=] _].
  - split.
    + intros Hraise. rewrite Hraise in Hspec. simpl in Hspec.
      destruct Hspec as (_ & Hdim & Hdraws & Hlen).
      split_and!; [congruence | done | done].
    + intros (Hm & Hdraws & Hdim).
      destruct draws as [|[ri rj] draws]; [done|]. simpl.
      rewrite decide_False by (rewrite Hlen0; congruence).
      unfold Minesweeper.randrange.
      destruct (decide (0 < height)); [|done].
      rewrite (decide_False (P := 0 < width)) by lia. done.
Qed.

(** X3.  The placement loop ends: on a board with positive sides and for
    [0 ≤ mines ≤ height * width], [Minesweeper(height, width, mines)]
    returns as soon as the draws have hit every square of the board. *)
Theorem minesweeper_init_terminates (height width mines : Z) (draws : list (nat * nat)) :
  0 < height → 0 < width → 0 ≤ mines ≤ height * width →
  (∀ c : Cell, 0 ≤ c.1 < height → 0 ≤ c.2 < width →
     ∃ d, d ∈ draws ∧ cell_of_draw height width d = c) →
  ∃ g, Minesweeper.init height width mines draws = Minesweeper.Returns g.
Proof.
  intros Hh Hw Hm Hcover. unfold Minesweeper.init.
  pose proof (place_mines_spec mines draws _ (consistent_empty height width)) as Hspec.
  destruct (Minesweeper.place_mines mines draws _) as [g|e|g]; [by exists g | |].
  - simpl in Hspec. destruct Hspec as (_ & [?|?] & _); lia.
  - exfalso. simpl in Hspec.
    destruct Hspec as (Hg & Hhg & Hwg & _ & _ & Hdraws & Hlt).
    assert (Hall : all_cells (player g) ⊆ Minesweeper.mines g).
    { intros c Hc. apply on_board_player in Hc as [Hc1 Hc2].
      rewrite Hhg in Hc1. rewrite Hwg in Hc2.
      destruct (Hcover c Hc1 Hc2) as (d & Hd & <-). by apply Hdraws. }
    apply subseteq_size in Hall.
    pose proof (len_all_cells (player g)) as Hlen. simpl in Hlen.
    rewrite Hhg, Hwg in Hlen.
    assert (len (∅ : gset Cell) = 0) as Hlen0 by (unfold len; by rewrite size_empty).
    specialize (Hlt ltac:(lia)). unfold len in *. nia.
Qed.

Lemma minesweeper_init_terminates_witness :
  ∃ g, Minesweeper.init 1 2 1 [(0, 0); (0, 1)]%nat = Minesweeper.Returns g.
Proof.
  apply (minesweeper_init_terminates 1 2 1 [(0, 0); (0, 1)]%nat); [lia | lia | lia |].
  intros [i j] Hi Hj. simpl in Hi, Hj.
  assert (i = 0) as -> by lia.
  assert (j = 0 ∨ j = 1) as [-> | ->] by lia.
  - exists (0, 0)%nat. split; [left | reflexivity].
  - exists (0, 1)%nat. split; [right; left | reflexivity].
Defined.

(** X16.  With positive sides and a number of mines below 0 or above
    [height * width], the placement loop of
    [Minesweeper(height, width, mines)] never ends: whatever is drawn
    and however many draws are made, the constructor has neither
    returned nor raised, and the loop is still running with a number of
    mines other than [mines]. *)
Theorem minesweeper_init_loops (height width mines : Z) (draws : list (nat * nat)) :
  0 < height → 0 < width → ¬ (0 ≤ mines ≤ height * width) →
  ∃ g, Minesweeper.init height width mines draws = Minesweeper.OutOfDraws g ∧
       consistent g ∧ len (Minesweeper.mines g) ≠ mines.
Proof.
  unfold Minesweeper.init. intros Hh Hw Hout.
  pose proof (place_mines_spec mines draws _ (consistent_empty height width)) as Hspec.
  destruct (Minesweeper.place_mines mines draws _) as [g | e | g]; simpl in Hspec.
  - destruct Hspec as (Hg & Hgh & Hgw & _ & _ & Hlen).
    pose proof (len_mines_le g Hg) as Hle. rewrite Hgh, Hgw, Hlen in Hle.
    destruct Hout. nia.
  - destruct Hspec as (_ & Hside & _). lia.
  - destruct Hspec as (Hg & _ & _ & _ & Hlen & _). by exists g.
Qed.

Lemma minesweeper_init_loops_witness :
  ∃ g, Minesweeper.init 1 2 3 [(0, 0); (0, 1); (5, 5)]%nat = Minesweeper.OutOfDraws g ∧
       consistent g ∧ len (Minesweeper.mines g) ≠ 3.
Proof.
  apply (minesweeper_init_loops 1 2 3 [(0, 0); (0, 1); (5, 5)]%nat); lia.
Defined.

(** ** [nearby_mines] *)

Section Nearby.
Variable g : Minesweeper.t.
Hypothesis Hg : consistent g.
Implicit Types (c cell : Cell) (A : gset Cell).

Lemma len_add_cell c A :
  c ∉ A →
  len (({[ c ]} ∪ A) ∩ Minesweeper.mines g)
  = if bool_decide (c ∈ Minesweeper.mines g)
    then len (A ∩ Minesweeper.mines g) + 1
    else len (A ∩ Minesweeper.mines g).
Proof.
  intros Hc. case_bool_decide as Hm.
  - replace (({[ c ]} ∪ A) ∩ Minesweeper.mines g)
      with ({[ c ]} ∪ A ∩ Minesweeper.mines g) by set_solver.
    unfold len.
    rewrite (size_union (C:=gset Cell) {[ c ]} (A ∩ Minesweeper.mines g)) by set_solver.
    rewrite size_singleton. lia.
  - replace (({[ c ]} ∪ A) ∩ Minesweeper.mines g)
      with (A ∩ Minesweeper.mines g) by set_solver.
    done.
Qed.

(** One row of the double loop: the count follows the set of neighbours
    collected so far. *)
Lemma nearby_row cell (i : Z) (lj : list Z) A :
  NoDup lj → (∀ j, j ∈ lj → (i, j) ∉ A) →
  foldl (λ count j,
      if decide ((i, j) = cell) then count
      else if (0 <=? i) && (i <? Minesweeper.height g)
              && (0 <=? j) && (j <? Minesweeper.width g) then
        c ← count;
        b ← Minesweeper.board_at g i j;
        Some (if b : bool then c + 1 else c)
      else count) (Some (len (A ∩ Minesweeper.mines g))) lj
  = Some (len (foldl (λ acc j,
      if decide ((i, j) = cell) then acc
      else if in_bounds (player g) (i, j) then {[ (i, j) ]} ∪ acc
      else acc) A lj ∩ Minesweeper.mines g)).
Proof.
  intros Hnd. revert A. induction Hnd as [|j lj Hj Hnd IH]; intros A Hfresh; [done|].
  assert (Hrest : ∀ A', (∀ j', j' ∈ lj → (i, j') ∈ A' → (i, j') ∈ A ∨ j' = j) →
                        ∀ j', j' ∈ lj → (i, j') ∉ A').
  { intros A' HA' j' Hj' Hin. destruct (HA' j' Hj' Hin) as [Hin'| ->]; [|done].
    apply (Hfresh j'); [by right | done]. }
  simpl. destruct (decide ((i, j) = cell)) as [Heq|Hne].
  - apply IH. apply Hrest. tauto.
  - change (in_bounds (player g) (i, j))
      with ((0 <=? i) && (i <? Minesweeper.height g)
            && (0 <=? j) && (j <? Minesweeper.width g)).
    destruct ((0 <=? i) && (i <? Minesweeper.height g)
              && (0 <=? j) && (j <? Minesweeper.width g)) eqn:Hb.
    + assert (Hon : on_board g (i, j)).
      { unfold on_board. simpl. rewrite !andb_true_iff in Hb. lia. }
      destruct Hg as (_ & Hboard & _).
      specialize (Hboard (i, j) Hon). simpl in Hboard. simpl. rewrite Hboard. simpl.
      assert (Hfresh_j : (i, j) ∉ A) by (apply Hfresh; left).
      rewrite <- IH.
      * rewrite (len_add_cell (i, j) A Hfresh_j). by destruct (bool_decide _).
      * apply Hrest. intros j' Hj'. rewrite elem_of_union, elem_of_singleton.
        intros [[= ->]|?]; tauto.
    + apply IH. apply Hrest. tauto.
Qed.

Lemma nearby_rows cell (li lj : list Z) A :
  NoDup li → NoDup lj → (∀ i j, i ∈ li → j ∈ lj → (i, j) ∉ A) →
  foldl (λ count i,
    foldl (λ count j,
      if decide ((i, j) = cell) then count
      else if (0 <=? i) && (i <? Minesweeper.height g)
              && (0 <=? j) && (j <? Minesweeper.width g) then
        c ← count;
        b ← Minesweeper.board_at g i j;
        Some (if b : bool then c + 1 else c)
      else count) count lj) (Some (len (A ∩ Minesweeper.mines g))) li
  = Some (len (foldl (λ acc i,
      foldl (λ acc j,
        if decide ((i, j) = cell) then acc
        else if in_bounds (player g) (i, j) then {[ (i, j) ]} ∪ acc
        else acc) acc lj) A li ∩ Minesweeper.mines g)).
Proof.
  intros Hnd Hndj. revert A.
  induction Hnd as [|i li Hi Hnd IH]; intros A Hfresh; [done|].
  simpl. rewrite nearby_row; [|done|].
  - apply IH. intros i' j Hi' Hj Hin.
    pose proof (elem_of_neighbor_loop (player g) cell [i] lj A (i', j)) as Hloop.
    simpl in Hloop. apply Hloop in Hin as [Hin | (Hii & _)].
    + apply (Hfresh i' j); [by right | done | done].
    + apply list_elem_of_singleton in Hii as ->. done.
  - intros j Hj. apply Hfresh; [left | done].
Qed.

Lemma NoDup_range3 (k : Z) : NoDup (range3 k).
Proof.
  unfold range3. repeat constructor; rewrite ?elem_of_cons, ?elem_of_nil; lia.
Qed.

Lemma nearby_mines_eq cell :
  Minesweeper.nearby_mines g cell
  = Some (len (neighbor_cells (player g) cell ∩ Minesweeper.mines g)).
Proof.
  unfold Minesweeper.nearby_mines, neighbor_cells.
  rewrite <- (nearby_rows cell (range3 cell.1) (range3 cell.2) ∅).
  - replace (len (∅ ∩ Minesweeper.mines g)) with 0; [done|].
    replace (∅ ∩ Minesweeper.mines g) with (∅ : gset Cell) by set_solver.
    unfold len. by rewrite size_empty.
  - apply NoDup_range3.
  - apply NoDup_range3.
  - intros i j _ _. set_solver.
Qed.

End Nearby.

Lemma size_list_to_set_le (l : list Cell) :
  (size (list_to_set l : gset Cell) ≤ length l)%nat.
Proof.
  induction l as [|c l IH]; [by rewrite list_to_set_nil, size_empty|].
  rewrite list_to_set_cons, length_cons, size_union_alt, size_singleton.
  assert (size (list_to_set l ∖ {[ c ]} : gset Cell) ≤ size (list_to_set l : gset Cell))%nat
    by (apply subseteq_size; set_solver).
  lia.
Qed.

(** A cell has at most eight neighbours. *)
Lemma len_neighbor_cells (ai : AI) (cell : Cell) : 0 ≤ len (neighbor_cells ai cell) ≤ 8.
Proof.
  destruct cell as [r k].
  set (around := [ (r - 1, k - 1); (r - 1, k); (r - 1, k + 1);
                   (r, k - 1); (r, k + 1);
                   (r + 1, k - 1); (r + 1, k); (r + 1, k + 1) ]).
  assert (Hsub : neighbor_cells ai (r, k) ⊆ list_to_set around).
  { intros [i j] Hc. apply elem_of_neighbor_cells in Hc as (Hne & _ & Hi & Hj).
    simpl in Hi, Hj. apply elem_of_list_to_set. unfold around.
    rewrite !elem_of_cons.
    assert (i = r - 1 ∨ i = r ∨ i = r + 1) as [-> | [-> | ->]] by lia;
      assert (j = k - 1 ∨ j = k ∨ j = k + 1) as [-> | [-> | ->]] by lia;
      tauto. }
  apply subseteq_size in Hsub.
  pose proof (size_list_to_set_le around) as Hle.
  change (length around) with 8%nat in Hle.
  unfold len. lia.
Qed.

Lemma sample_game_consistent : consistent sample_game.
Proof.
  pose proof (place_mines_spec 2 [(4, 4); (1, 1)]%nat _ (consistent_empty 2 3)) as Hspec.
  assert (Hrun : Minesweeper.place_mines 2 [(4, 4); (1, 1)]%nat
                   (Minesweeper.Make 2 3 ∅ (Minesweeper.empty_board 2 3) ∅)
                 = Minesweeper.Returns sample_game) by (vm_compute; reflexivity).
  rewrite Hrun in Hspec. by destruct Hspec.
Qed.

(** X4.  In a game whose board and mine set agree (as [__init__] leaves
    them), [nearby_mines(cell)] raises no [IndexError] and returns the
    number of mines among the squares of the board at most one row and
    one column away from [cell], [cell] itself not counted; the result
    is between 0 and 8 and never more than the number of mines.  This
    holds for every [cell], on the board or not. *)
Theorem nearby_mines_counts (g : Minesweeper.t) (cell : Cell) :
  consistent g →
  ∃ n, Minesweeper.nearby_mines g cell = Some n ∧
       n = len (neighbor_cells (player g) cell ∩ Minesweeper.mines g) ∧
       (∀ c, c ∈ neighbor_cells (player g) cell ↔
             c ≠ cell ∧ on_board g c ∧
             cell.1 - 1 ≤ c.1 ≤ cell.1 + 1 ∧ cell.2 - 1 ≤ c.2 ≤ cell.2 + 1) ∧
       0 ≤ n ≤ 8 ∧ n ≤ len (Minesweeper.mines g).
Proof.
  intros Hg. eexists. split; [by apply nearby_mines_eq|].
  split; [done|]. split; [intros c; apply elem_of_neighbor_cells|].
  pose proof (len_neighbor_cells (player g) cell) as H8.
  assert (size (neighbor_cells (player g) cell ∩ Minesweeper.mines g)
          ≤ size (neighbor_cells (player g) cell))%nat
    by (apply subseteq_size; set_solver).
  assert (size (neighbor_cells (player g) cell ∩ Minesweeper.mines g)
          ≤ size (Minesweeper.mines g))%nat
    by (apply subseteq_size; set_solver).
  unfold len in *. lia.
Qed.

Lemma nearby_mines_counts_witness :
  ∃ n, Minesweeper.nearby_mines sample_game (0, 0) = Some n ∧
       n = len (neighbor_cells (player sample_game) (0, 0)
                ∩ Minesweeper.mines sample_game) ∧
       (∀ c, c ∈ neighbor_cells (player sample_game) (0, 0) ↔
             c ≠ (0, 0) ∧ on_board sample_game c ∧
             (0, 0).1 - 1 ≤ c.1 ≤ (0, 0).1 + 1 ∧ (0, 0).2 - 1 ≤ c.2 ≤ (0, 0).2 + 1) ∧
       0 ≤ n ≤ 8 ∧ n ≤ len (Minesweeper.mines sample_game).
Proof. exact (nearby_mines_counts sample_game (0, 0) sample_game_consistent). Defined.

(** ** [is_mine] *)

Lemma py_get_mod {A} (l : list A) (i : Z) :
  - Z.of_nat (length l) ≤ i < Z.of_nat (length l) →
  Minesweeper.py_get l i = l !! Z.to_nat (i `mod` Z.of_nat (length l)).
Proof.
  intros Hi. unfold Minesweeper.py_get.
  destruct (decide (0 ≤ i)) as [Hpos|Hneg].
  - by rewrite Z.mod_small by lia.
  - rewrite decide_True by lia. f_equal. f_equal.
    rewrite <- (Z.mod_add i 1) by lia. rewrite Z.mod_small; lia.
Qed.

(** X5.  [is_mine(cell)] in a game whose board and mine set agree, for
    [cell = (i, j)]: it answers exactly when [-height ≤ i < height] and
    [-width ≤ j < width] and raises [IndexError] otherwise; on the board
    it tells whether the cell is a mine; a negative index is counted
    from the far side, so that it tells whether
    [(i mod height, j mod width)] is one. *)
Theorem is_mine_spec (g : Minesweeper.t) (cell : Cell) :
  consistent g →
  (on_board g cell →
   Minesweeper.is_mine g cell = Some (bool_decide (cell ∈ Minesweeper.mines g))) ∧
  (- Minesweeper.height g ≤ cell.1 < Minesweeper.height g ∧
   - Minesweeper.width g ≤ cell.2 < Minesweeper.width g →
   Minesweeper.is_mine g cell
   = Some (bool_decide ((cell.1 `mod` Minesweeper.height g,
                         cell.2 `mod` Minesweeper.width g) ∈ Minesweeper.mines g))) ∧
  (Minesweeper.is_mine g cell = None ↔
   ¬ (- Minesweeper.height g ≤ cell.1 < Minesweeper.height g ∧
      - Minesweeper.width g ≤ cell.2 < Minesweeper.width g)).
Proof.
  intros Hg. destruct cell as [i j]. simpl.
  pose proof Hg as ([Hlen Hrows] & Hboard & _).
  assert (Hwrap : - Minesweeper.height g ≤ i < Minesweeper.height g →
                  - Minesweeper.width g ≤ j < Minesweeper.width g →
    Minesweeper.board_at g i j
    = Some (bool_decide ((i `mod` Minesweeper.height g, j `mod` Minesweeper.width g)
                         ∈ Minesweeper.mines g))).
  { intros Hi Hj.
    assert (Hon : on_board g (i `mod` Minesweeper.height g, j `mod` Minesweeper.width g)).
    { split; simpl; apply Z.mod_pos_bound; lia. }
    rewrite <- (Hboard _ Hon). simpl.
    destruct Hon as [Hi' Hj']. simpl in Hi', Hj'.
    rewrite (board_at_nonneg g (i `mod` _) (j `mod` _)) by lia.
    unfold Minesweeper.board_at.
    rewrite py_get_mod by lia.
    replace (Z.of_nat (length (Minesweeper.board g))) with (Minesweeper.height g) by lia.
    destruct (shaped_row g (i `mod` Minesweeper.height g) (conj Hlen Hrows) Hi')
      as (row & -> & Hrow).
    simpl. rewrite py_get_mod by lia.
    by replace (Z.of_nat (length row)) with (Minesweeper.width g) by lia. }
  split_and!.
  - intros [Hi Hj]. simpl in Hi, Hj. by apply (Hboard (i, j)).
  - intros [Hi Hj]. by apply Hwrap.
  - split.
    + intros Hnone [Hi Hj]. rewrite Hwrap in Hnone by done. done.
    + intros Hout. unfold Minesweeper.board_at.
      destruct (Minesweeper.py_get (Minesweeper.board g) i) as [row|] eqn:Hrow; [|done].
      simpl. apply eq_None_not_Some. intros Hsome.
      apply Hout. split.
      * assert (His : is_Some (Minesweeper.py_get (Minesweeper.board g) i)) by eauto.
        apply py_get_is_Some in His. lia.
      * apply py_get_is_Some in Hsome.
        assert (Hin : row ∈ Minesweeper.board g).
        { unfold Minesweeper.py_get in Hrow.
          repeat case_decide; try done; by eapply list_elem_of_lookup_2. }
        rewrite Forall_forall in Hrows. rewrite (Hrows row Hin) in Hsome. lia.
Qed.

Lemma is_mine_spec_witness :
  (on_board sample_game (-1, -2) →
   Minesweeper.is_mine sample_game (-1, -2)
   = Some (bool_decide ((-1, -2) ∈ Minesweeper.mines sample_game))) ∧
  (- Minesweeper.height sample_game ≤ (-1, -2).1 < Minesweeper.height sample_game ∧
   - Minesweeper.width sample_game ≤ (-1, -2).2 < Minesweeper.width sample_game →
   Minesweeper.is_mine sample_game (-1, -2)
   = Some (bool_decide (((-1, -2).1 `mod` Minesweeper.height sample_game,
                         (-1, -2).2 `mod` Minesweeper.width sample_game)
                        ∈ Minesweeper.mines sample_game))) ∧
  (Minesweeper.is_mine sample_game (-1, -2) = None ↔
   ¬ (- Minesweeper.height sample_game ≤ (-1, -2).1 < Minesweeper.height sample_game ∧
      - Minesweeper.width sample_game ≤ (-1, -2).2 < Minesweeper.width sample_game)).
Proof. exact (is_mine_spec sample_game (-1, -2) sample_game_consistent). Defined.

(** ** Playing the game *)

Lemma neighbor_cells_dims (ai ai' : AI) (cell : Cell) :
  height ai' = height ai → width ai' = width ai →
  neighbor_cells ai' cell = neighbor_cells ai cell.
Proof.
  intros Hh Hw. unfold neighbor_cells, in_bounds. by rewrite Hh, Hw.
Qed.

Lemma is_mine_false_not_mine (g : Minesweeper.t) (cell : Cell) :
  consistent g → Minesweeper.is_mine g cell = Some false →
  cell ∉ Minesweeper.mines g.
Proof.
  intros (_ & Hboard & Hmines) Hfalse Hin.
  specialize (Hboard cell (Hmines cell Hin)).
  destruct cell as [i j]. simpl in *.
  rewrite Hboard in Hfalse. rewrite bool_decide_eq_true_2 in Hfalse by done. done.
Qed.

(** What the player records is truthful for the game's mines. *)
Lemma played_truthfully (g : Minesweeper.t) (ai : AI) :
  consistent g → played g ai →
  reachable_truthfully (Minesweeper.mines g)
    (Minesweeper.height g) (Minesweeper.width g) ai ∧
  height ai = Minesweeper.height g ∧ width ai = Minesweeper.width g.
Proof.
  intros Hg. induction 1 as [|o cell count ai Hv _ IH Hmine Hnear].
  - split_and!; [apply truthfully_init | done | done].
  - destruct IH as (IH & Hh & Hw).
    destruct (grows_add_knowledge o cell count ai) as (Hh' & Hw' & _).
    split_and!; [|congruence..].
    apply truthfully_step; [done | done |]. split.
    + by apply is_mine_false_not_mine.
    + rewrite (nearby_mines_eq g Hg) in Hnear. injection Hnear as <-.
      by rewrite (neighbor_cells_dims (player g) ai).
Qed.

Lemma sample_played :
  played sample_game (add_knowledge canonical (0, 0) 2 (player sample_game)).
Proof.
  apply played_step; [apply canonical_valid | apply played_init | |];
    vm_compute; reflexivity.
Qed.

(** X6.  A player who starts from a fresh knowledge base of the size of
    the game, reveals only cells that [is_mine] reports free and records
    for each the number [nearby_mines] reports, knows only facts: every
    cell of [mines] is a mine of the game, no cell of [safes] is, the
    count of every sentence of the pool is the number of mines among its
    cells, and [make_safe_move] never proposes a mine nor a cell already
    revealed. *)
Theorem played_knowledge_is_sound (g : Minesweeper.t) (ai : AI) :
  consistent g → played g ai →
  mines ai ⊆ Minesweeper.mines g ∧
  safes ai ## Minesweeper.mines g ∧
  Forall (λ s, Sentence.count s
               = len (Sentence.cells s ∩ Minesweeper.mines g)) (knowledge ai) ∧
  (∀ r c, (make_safe_move r ai).1 = Some c →
          (c ∉ Minesweeper.mines g) ∧ (c ∉ moves_made ai)).
Proof.
  intros Hg Hp. destruct (played_truthfully g ai Hg Hp) as (Hr & _ & _).
  destruct (sound_reachable _ _ _ _ Hr) as (Hs & Hm & Hk).
  split_and!; [done.. |].
  intros r c Hc.
  destruct (choose_spec r (safes ai ∖ moves_made ai) ai) as (_ & Hsome & _).
  fold (make_safe_move r ai) in Hsome. apply Hsome in Hc.
  apply elem_of_difference in Hc as [Hsafe Hnew]. split; [|done].
  intros Hmine. by apply (Hs c).
Qed.

Lemma played_knowledge_is_sound_witness :
  let ai := add_knowledge canonical (0, 0) 2 (player sample_game) in
  mines ai ⊆ Minesweeper.mines sample_game ∧
  safes ai ## Minesweeper.mines sample_game ∧
  Forall (λ s, Sentence.count s
               = len (Sentence.cells s ∩ Minesweeper.mines sample_game)) (knowledge ai) ∧
  (∀ r c, (make_safe_move r ai).1 = Some c →
          (c ∉ Minesweeper.mines sample_game) ∧ (c ∉ moves_made ai)).
Proof.
  exact (played_knowledge_is_sound sample_game _ sample_game_consistent sample_played).
Defined.

(** * Further properties of the knowledge base *)

(** ** Marking a sentence *)

(** X7.  [Sentence.mark_safe(cell)]: when [cell] is a member and the
    sentence has another cell, [cell] is removed and the count is kept;
    when the cell set is exactly [{cell}], the cell set is kept and the
    count is set to 0 whatever it was; when [cell] is absent, nothing
    changes. *)
Theorem sentence_mark_safe_spec (cell : Cell) (s : Sentence) :
  (cell ∈ Sentence.cells s ∧ Sentence.cells s ≠ {[ cell ]} →
     Sentence.cells (Sentence.mark_safe cell s) = Sentence.cells s ∖ {[ cell ]} ∧
     Sentence.count (Sentence.mark_safe cell s) = Sentence.count s) ∧
  (Sentence.cells s = {[ cell ]} →
     Sentence.cells (Sentence.mark_safe cell s) = {[ cell ]} ∧
     Sentence.count (Sentence.mark_safe cell s) = 0) ∧
  (cell ∉ Sentence.cells s → Sentence.mark_safe cell s = s).
Proof.
  split_and!.
  - intros [Hin Hne]. by rewrite mark_safe_member.
  - intros Heq. by rewrite mark_safe_singleton.
  - apply mark_safe_absent.
Qed.

Lemma mark_safe_cells (cell : Cell) (s : Sentence) :
  Sentence.cells (Sentence.mark_safe cell s) ⊆ Sentence.cells s ∧
  Sentence.cells s ∖ {[ cell ]} ⊆ Sentence.cells (Sentence.mark_safe cell s) ∧
  (Sentence.cells s ≠ ∅ → Sentence.cells (Sentence.mark_safe cell s) ≠ ∅).
Proof.
  destruct (mark_cases cell s) as [Heq | [[Hin Hne] | Hout]].
  - rewrite mark_safe_singleton by done. simpl. split_and!; [done | set_solver | done].
  - rewrite mark_safe_member by done. simpl. split_and!; [set_solver | done |].
    intros _ Hempty. apply Hne. apply set_eq. intros c.
    destruct (decide (c = cell)) as [->|]; set_solver.
  - rewrite mark_safe_absent by done. split_and!; [done | set_solver | done].
Qed.

Lemma mark_mine_cells (cell : Cell) (s : Sentence) :
  Sentence.cells (Sentence.mark_mine cell s) ⊆ Sentence.cells s ∧
  Sentence.cells s ∖ {[ cell ]} ⊆ Sentence.cells (Sentence.mark_mine cell s) ∧
  (Sentence.cells s ≠ ∅ → Sentence.cells (Sentence.mark_mine cell s) ≠ ∅).
Proof.
  destruct (mark_cases cell s) as [Heq | [[Hin Hne] | Hout]].
  - rewrite mark_mine_singleton by done. simpl. split_and!; [done | set_solver | done].
  - rewrite mark_mine_member by done. simpl. split_and!; [set_solver | done |].
    intros _ Hempty. apply Hne. apply set_eq. intros c.
    destruct (decide (c = cell)) as [->|]; set_solver.
  - rewrite mark_mine_absent by done. split_and!; [done | set_solver | done].
Qed.

Lemma mark_safe_idempotent (cell : Cell) (s : Sentence) :
  Sentence.mark_safe cell (Sentence.mark_safe cell s) = Sentence.mark_safe cell s.
Proof.
  destruct (mark_cases cell s) as [Heq | [[Hin Hne] | Hout]].
  - rewrite (mark_safe_singleton cell s) by done. by rewrite mark_safe_singleton.
  - rewrite (mark_safe_member cell s) by done. apply mark_safe_absent. simpl. set_solver.
  - rewrite (mark_safe_absent cell s Hout). by apply mark_safe_absent.
Qed.

Lemma mark_mine_idempotent (cell : Cell) (s : Sentence) :
  Sentence.mark_mine cell (Sentence.mark_mine cell s) = Sentence.mark_mine cell s.
Proof.
  destruct (mark_cases cell s) as [Heq | [[Hin Hne] | Hout]].
  - rewrite (mark_mine_singleton cell s) by done. by rewrite mark_mine_singleton.
  - rewrite (mark_mine_member cell s) by done. apply mark_mine_absent. simpl. set_solver.
  - rewrite (mark_mine_absent cell s Hout). by apply mark_mine_absent.
Qed.

(** X8.  Marking a cell in a sentence, as safe or as a mine, can only
    take that one cell out, never empties a sentence that has a cell,
    and has no further effect when repeated. *)
Theorem marking_shrinks_by_one (cell : Cell) (s : Sentence) :
  (Sentence.cells (Sentence.mark_safe cell s) ⊆ Sentence.cells s ∧
   Sentence.cells s ∖ {[ cell ]} ⊆ Sentence.cells (Sentence.mark_safe cell s) ∧
   (Sentence.cells s ≠ ∅ → Sentence.cells (Sentence.mark_safe cell s) ≠ ∅) ∧
   Sentence.mark_safe cell (Sentence.mark_safe cell s) = Sentence.mark_safe cell s) ∧
  (Sentence.cells (Sentence.mark_mine cell s) ⊆ Sentence.cells s ∧
   Sentence.cells s ∖ {[ cell ]} ⊆ Sentence.cells (Sentence.mark_mine cell s) ∧
   (Sentence.cells s ≠ ∅ → Sentence.cells (Sentence.mark_mine cell s) ≠ ∅) ∧
   Sentence.mark_mine cell (Sentence.mark_mine cell s) = Sentence.mark_mine cell s).
Proof.
  destruct (mark_safe_cells cell s) as (? & ? & ?).
  destruct (mark_mine_cells cell s) as (? & ? & ?).
  split; split_and!; try done.
  - apply mark_safe_idempotent.
  - apply mark_mine_idempotent.
Qed.

(** X9.  Marking keeps a sentence true: when the count of a sentence is
    the number of mines among its cells, it still is after a cell that
    holds no mine is marked safe, and after a cell that holds a mine is
    marked as a mine. *)
Theorem marking_keeps_sentences_true (L : gset Cell) (cell : Cell) (s : Sentence) :
  Sentence.count s = len (Sentence.cells s ∩ L) →
  (cell ∉ L →
   Sentence.count (Sentence.mark_safe cell s)
   = len (Sentence.cells (Sentence.mark_safe cell s) ∩ L)) ∧
  (cell ∈ L →
   Sentence.count (Sentence.mark_mine cell s)
   = len (Sentence.cells (Sentence.mark_mine cell s) ∩ L)).
Proof.
  intros Hs. split; intros Hc.
  - by apply (true_mark_safe L).
  - by apply (true_mark_mine L).
Qed.

Lemma marking_keeps_sentences_true_witness :
  let L : gset Cell := {[ (0, 1) ]} in
  let s := Sentence.Make {[ (0, 0); (0, 1); (0, 2) ]} 1 in
  ((0, 1) ∉ L →
   Sentence.count (Sentence.mark_safe (0, 1) s)
   = len (Sentence.cells (Sentence.mark_safe (0, 1) s) ∩ L)) ∧
  ((0, 1) ∈ L →
   Sentence.count (Sentence.mark_mine (0, 1) s)
   = len (Sentence.cells (Sentence.mark_mine (0, 1) s) ∩ L)).
Proof.
  apply (marking_keeps_sentences_true {[ (0, 1) ]} (0, 1)
           (Sentence.Make {[ (0, 0); (0, 1); (0, 2) ]} 1)).
  vm_compute. reflexivity.
Defined.

(** ** Neighbours *)

(** X10.  The neighbours that [add_knowledge] collects for a cell: the
    cell is not its own neighbour, every neighbour is on the grid, there
    are at most eight, and on the grid the relation is symmetric. *)
Theorem neighbor_cells_facts (ai : AI) (cell c : Cell) :
  (cell ∉ neighbor_cells ai cell) ∧
  (c ∈ neighbor_cells ai cell → on_grid ai c) ∧
  0 ≤ len (neighbor_cells ai cell) ≤ 8 ∧
  (on_grid ai cell → c ∈ neighbor_cells ai cell → cell ∈ neighbor_cells ai c).
Proof.
  pose proof (len_neighbor_cells ai cell) as Hlen.
  split_and!; try lia.
  - rewrite elem_of_neighbor_cells. tauto.
  - rewrite elem_of_neighbor_cells. tauto.
  - intros Hon. rewrite !elem_of_neighbor_cells.
    intros (Hne & _ & Hi & Hj). split_and!; [congruence | done | lia..].
Qed.

(** ** What a call records *)

Section Moves.
Implicit Types (ai : AI) (o : Order) (cs : list Cell).

Lemma moves_made_direct_marks o (N : gset Cell) (count : Z) ai :
  moves_made (direct_marks o N count ai) = moves_made ai.
Proof.
  rewrite direct_marks_eq. cbv zeta. repeat case_decide; try done; simpl.
  - by destruct (mark_all_safe_sets (iter_cells o AtNeighbors N) ai) as (_ & _ & ->).
  - by destruct (mark_all_mine_sets (iter_cells o AtNeighbors N) ai) as (_ & _ & ->).
Qed.

Lemma moves_made_derived_marks cs (s : Sentence) ai :
  moves_made (derived_marks cs s ai) = moves_made ai.
Proof.
  unfold derived_marks. repeat case_decide; try done.
  - destruct (mark_all_mine_sets cs (mark_all_safe cs ai)) as (_ & _ & ->).
    by destruct (mark_all_safe_sets cs ai) as (_ & _ & ->).
  - by destruct (mark_all_mine_sets cs ai) as (_ & _ & ->).
  - by destruct (mark_all_safe_sets cs ai) as (_ & _ & ->).
Qed.

Lemma moves_made_subset_pass o ai :
  moves_made (subset_pass o ai).1 = moves_made ai.
Proof.
  apply (subset_pass_invariant (λ st, moves_made st.1 = moves_made ai)); [done|].
  intros i j [ai' new] Hst.
  destruct (pair_step_cases o i j ai' new)
    as [-> | (sen & sentence & _ & _ & _ & _ & ->)]; [done|].
  simpl in *. by rewrite moves_made_derived_marks.
Qed.

Lemma moves_made_add_knowledge o (cell : Cell) (count : Z) ai :
  moves_made (add_knowledge o cell count ai) = {[ cell ]} ∪ moves_made ai.
Proof.
  rewrite add_knowledge_unfold, before_reduce_unfold, infer_subsets_eq. simpl.
  rewrite moves_made_subset_pass. unfold before_subset_pass.
  by rewrite moves_made_direct_marks.
Qed.

End Moves.

(** X11.  [add_knowledge(cell, count)] adds exactly [cell] to
    [moves_made] and keeps the size of the grid; the cell is in [safes]
    afterwards, every move stays in [safes] if it was, and
    [make_safe_move] cannot propose the cell again.  This holds for
    every count and every iteration order. *)
Theorem add_knowledge_records_move (o : Order) (cell : Cell) (count : Z) (ai : AI) :
  moves_made (add_knowledge o cell count ai) = {[ cell ]} ∪ moves_made ai ∧
  height (add_knowledge o cell count ai) = height ai ∧
  width (add_knowledge o cell count ai) = width ai ∧
  cell ∈ safes (add_knowledge o cell count ai) ∧
  (moves_made ai ⊆ safes ai →
   moves_made (add_knowledge o cell count ai) ⊆ safes (add_knowledge o cell count ai)) ∧
  (∀ r, (make_safe_move r (add_knowledge o cell count ai)).1 ≠ Some cell).
Proof.
  pose proof (moves_made_add_knowledge o cell count ai) as Hmoves.
  destruct (grows_add_knowledge o cell count ai) as (Hh & Hw & _ & _ & Hsafes).
  assert (Hcell : cell ∈ safes (add_knowledge o cell count ai)).
  { assert (Hg : grows (record_move cell ai) (add_knowledge o cell count ai)).
    { rewrite add_knowledge_unfold, before_reduce_unfold.
      eapply grows_trans; [|eapply grows_trans;
                             [apply grows_infer_subsets | apply grows_set_knowledge]].
      unfold before_subset_pass, after_observation_sentence.
      eapply grows_trans; [apply grows_set_knowledge | apply grows_direct_marks]. }
    destruct Hg as (_ & _ & _ & _ & Hg).
    destruct (grows_record_move cell ai) as (_ & _ & Hs). by apply Hg. }
  split_and!; [done.. | |].
  - intros Hinv c. rewrite Hmoves, elem_of_union, elem_of_singleton.
    intros [-> | Hc]; [done|]. apply Hsafes, Hinv, Hc.
  - intros r Hr.
    destruct (choose_spec r (safes (add_knowledge o cell count ai)
                             ∖ moves_made (add_knowledge o cell count ai))
                (add_knowledge o cell count ai)) as (_ & Hsome & _).
    fold (make_safe_move r (add_knowledge o cell count ai)) in Hsome.
    apply Hsome in Hr. rewrite Hmoves in Hr. set_solver.
Qed.

(** ** The cleanup *)

Lemma NoDup_fmap_eq {A B} (f : A → B) (l : list A) (x y : A) :
  NoDup (f <$> l) → x ∈ l → y ∈ l → f x = f y → x = y.
Proof.
  induction l as [|a l IH]; intros Hnd Hx Hy Hxy; [by apply elem_of_nil in Hx|].
  rewrite fmap_cons in Hnd. apply NoDup_cons in Hnd as [Ha Hnd].
  apply elem_of_cons in Hx as [->|Hx]; apply elem_of_cons in Hy as [->|Hy].
  - done.
  - exfalso. apply Ha. rewrite Hxy. by apply list_elem_of_fmap_2.
  - exfalso. apply Ha. rewrite <- Hxy. by apply list_elem_of_fmap_2.
  - by apply IH.
Qed.

(** On a pool with no two sentences on the same cells, the cleanup only
    changes the order. *)
Lemma reduce_NoDup_Permutation (o : Order) (ai : AI) :
  valid_order o → NoDup (Sentence.cells <$> knowledge ai) →
  knowledge (reduce o ai) ≡ₚ knowledge ai.
Proof.
  intros Hv Hnd. apply NoDup_Permutation.
  - eapply NoDup_fmap_1. by apply reduce_NoDup.
  - by eapply NoDup_fmap_1.
  - intros s. split; [by apply reduce_subseteq|].
    intros Hs. destruct (representative_is_Some _ _ Hs) as (s0 & Hrep & Hs0 & Hc).
    apply (elem_of_reduce o ai s Hv). exists s. split; [done|].
    by assert (s0 = s) as -> by apply (NoDup_fmap_eq Sentence.cells _ _ _ Hnd Hs0 Hs Hc).
Qed.

(** X12.  The cleanup at the end of [add_knowledge] is complete: running
    it once more on the returned pool, in any order, only permutes the
    sentences. *)
Theorem cleanup_is_idempotent (o o' : Order) (cell : Cell) (count : Z) (ai : AI) :
  valid_order o → valid_order o' →
  knowledge (reduce o' (add_knowledge o cell count ai))
  ≡ₚ knowledge (add_knowledge o cell count ai).
Proof.
  intros Hv Hv'. apply reduce_NoDup_Permutation; [done|].
  rewrite add_knowledge_unfold. by apply reduce_NoDup.
Qed.

Lemma cleanup_is_idempotent_witness :
  knowledge (reduce reversed (add_knowledge canonical (0, 1) 1 (init 2 3)))
  ≡ₚ knowledge (add_knowledge canonical (0, 1) 1 (init 2 3)).
Proof.
  exact (cleanup_is_idempotent canonical reversed (0, 1) 1 (init 2 3)
           canonical_valid reversed_valid).
Defined.

(** X13.  Of the sentences that share their cells, the cleanup keeps the
    one that comes first in the pool: every sentence of the returned
    pool stood in the pool before the cleanup, and no sentence before it
    there had the same cells.  When sentences on the same cells disagree
    on the count, the earliest one wins. *)
Theorem cleanup_keeps_first (o : Order) (cell : Cell) (count : Z) (ai : AI) (s : Sentence) :
  valid_order o →
  s ∈ knowledge (add_knowledge o cell count ai) →
  ∃ i0 : nat,
    knowledge (before_reduce o cell count ai) !! i0 = Some s ∧
    ∀ (k : nat) s', (k < i0)%nat →
      knowledge (before_reduce o cell count ai) !! k = Some s' →
      Sentence.cells s' ≠ Sentence.cells s.
Proof.
  intros Hv Hs. rewrite add_knowledge_unfold in Hs.
  apply (elem_of_reduce o _ s Hv) in Hs as (s1 & Hs1 & Hrep).
  destruct (representative_first _ _ _ Hrep) as (i0 & Hi0 & Hc & Hfirst).
  exists i0. split; [done|]. intros k s' Hk Hs'. rewrite Hc. by eapply Hfirst.
Qed.

Lemma cleanup_keeps_first_witness :
  ∃ i0 : nat,
    knowledge (before_reduce canonical (0, 0) 0 (init 1 2)) !! i0
      = Some (Sentence.Make {[ (0, 1) ]} 0) ∧
    ∀ (k : nat) s', (k < i0)%nat →
      knowledge (before_reduce canonical (0, 0) 0 (init 1 2)) !! k = Some s' →
      Sentence.cells s' ≠ Sentence.cells (Sentence.Make {[ (0, 1) ]} 0).
Proof.
  apply (cleanup_keeps_first canonical (0, 0) 0 (init 1 2)
           (Sentence.Make {[ (0, 1) ]} 0) canonical_valid).
  compute_done.
Defined.

(** ** The size of the pool *)

Lemma foldl_measure {A B} (m : B → nat) (k : nat) (f : B → A → B) (l : list A) (b : B) :
  (∀ b x, (m (f b x) ≤ m b + k)%nat) →
  (m (foldl f b l) ≤ m b + k * length l)%nat.
Proof.
  intros Hstep. revert b. induction l as [|x l IH]; intros b; simpl; [lia|].
  specialize (IH (f b x)). specialize (Hstep b x). lia.
Qed.

Section PoolSize.
Implicit Types (ai : AI) (o : Order) (cs : list Cell).

Lemma length_mark_all_safe cs ai :
  length (knowledge (mark_all_safe cs ai)) = length (knowledge ai).
Proof.
  unfold mark_all_safe.
  apply (foldl_invariant (λ st, length (knowledge st) = length (knowledge ai))); [done|].
  intros b c _ Hb. simpl. by rewrite length_fmap.
Qed.

Lemma length_mark_all_mine cs ai :
  length (knowledge (mark_all_mine cs ai)) = length (knowledge ai).
Proof.
  unfold mark_all_mine.
  apply (foldl_invariant (λ st, length (knowledge st) = length (knowledge ai))); [done|].
  intros b c _ Hb. simpl. by rewrite length_fmap.
Qed.

Lemma length_derived_marks cs (s : Sentence) ai :
  length (knowledge (derived_marks cs s ai)) = length (knowledge ai).
Proof.
  unfold derived_marks.
  repeat case_decide; rewrite ?length_mark_all_mine, ?length_mark_all_safe; done.
Qed.

Lemma length_pair_step o (i j : nat) (st : AI * list Sentence) :
  length (knowledge (pair_step o i j st).1) = length (knowledge st.1) ∧
  (length (pair_step o i j st).2 ≤ length st.2 + 1)%nat.
Proof.
  destruct st as [ai new].
  destruct (pair_step_cases o i j ai new)
    as [-> | (sen & sentence & _ & _ & _ & _ & ->)]; simpl; [lia|].
  rewrite length_derived_marks, length_app. simpl. lia.
Qed.

(** The pass keeps the length of the pool and derives at most one
    sentence for each ordered pair of positions. *)
Lemma length_subset_pass o ai :
  length (knowledge (subset_pass o ai).1) = length (knowledge ai) ∧
  (length (subset_pass o ai).2 ≤ length (knowledge ai) * length (knowledge ai))%nat.
Proof.
  split.
  - apply (subset_pass_invariant
             (λ st, length (knowledge st.1) = length (knowledge ai))); [done|].
    intros i j st Hst. destruct (length_pair_step o i j st) as [-> _]. done.
  - unfold subset_pass. set (n := length (knowledge ai)).
    pose proof (foldl_measure (λ st : AI * list Sentence, length st.2) n
      (λ st (i : nat), foldl (λ st j, pair_step o i j st) st (seq 0 n))
      (seq 0 n) (ai, [])) as Hm.
    simpl in Hm. rewrite length_seq in Hm. apply Hm.
    intros st i.
    pose proof (foldl_measure (λ st : AI * list Sentence, length st.2) 1
      (λ st (j : nat), pair_step o i j st) (seq 0 n) st) as Hi.
    simpl in Hi. rewrite length_seq in Hi.
    etrans; [apply Hi|lia]. intros st' j. apply length_pair_step.
Qed.

Lemma length_direct_marks o (N : gset Cell) (count : Z) ai :
  valid_order o →
  (length (knowledge (direct_marks o N count ai)) ≤ length (knowledge ai) + size N)%nat.
Proof.
  intros [Hperm _]. rewrite direct_marks_eq. cbv zeta.
  assert (Hlen : length (iter_cells o AtNeighbors N) = size N).
  { by rewrite (Hperm AtNeighbors N). }
  repeat case_decide; simpl;
    rewrite ?length_app, ?length_fmap, ?length_mark_all_safe, ?length_mark_all_mine; lia.
Qed.

Lemma length_remove_dups_le {A} `{EqDecision A} (l : list A) :
  (length (remove_dups l) ≤ length l)%nat.
Proof.
  induction l as [|x l IH]; simpl; [done|].
  case_decide; simpl; lia.
Qed.

Lemma length_omap_le {A B} (f : A → option B) (l : list A) :
  (length (omap f l) ≤ length l)%nat.
Proof.
  induction l as [|x l IH]; simpl; [done|].
  destruct (f x); simpl; fold (omap f l); lia.
Qed.

Lemma length_reduce o ai :
  valid_order o → (length (knowledge (reduce o ai)) ≤ length (knowledge ai))%nat.
Proof.
  intros [_ Hperm]. unfold reduce. simpl.
  etrans; [apply length_omap_le|].
  rewrite (Hperm (index_set (knowledge ai))). unfold index_set.
  etrans; [apply length_remove_dups_le|]. by rewrite length_fmap.
Qed.

End PoolSize.

(** X14.  One call makes the pool grow at most quadratically.  With [n]
    sentences in the pool before [add_knowledge], the subset pass starts
    from at most [n + 10] sentences (the sentence of the move, that of
    its neighbours and at most eight singletons), derives at most one
    sentence for each ordered pair of them, and the cleanup removes
    sentences only. *)
Theorem pool_growth_bound (o : Order) (cell : Cell) (count : Z) (ai : AI) :
  valid_order o →
  let n := length (knowledge ai) in
  let m := length (knowledge (before_subset_pass o cell count ai)) in
  (m ≤ n + 10)%nat ∧
  (length (subset_pass o (before_subset_pass o cell count ai)).2 ≤ m * m)%nat ∧
  (length (knowledge (add_knowledge o cell count ai)) ≤ m + m * m)%nat.
Proof.
  intros Hv. cbv zeta.
  set (pre := before_subset_pass o cell count ai).
  assert (Hpre : (length (knowledge pre) ≤ length (knowledge ai) + 10)%nat).
  { unfold pre, before_subset_pass.
    etrans; [by apply length_direct_marks|].
    pose proof (len_neighbor_cells (record_move cell ai) cell) as H8. unfold len in H8.
    unfold after_observation_sentence. simpl.
    rewrite length_app, length_fmap, length_app. simpl. lia. }
  destruct (length_subset_pass o pre) as [Hk Hnew].
  split_and!; [done | done |].
  rewrite add_knowledge_unfold, before_reduce_unfold, infer_subsets_eq.
  etrans; [by apply length_reduce|]. simpl. rewrite length_app. fold pre. lia.
Qed.

Lemma pool_growth_bound_witness :
  let o := canonical in
  let ai := add_knowledge canonical (0, 0) 0 (init 2 3) in
  let cell : Cell := (0, 1) in
  let count : Z := 1 in
  let n := length (knowledge ai) in
  let m := length (knowledge (before_subset_pass o cell count ai)) in
  (m ≤ n + 10)%nat ∧
  (length (subset_pass o (before_subset_pass o cell count ai)).2 ≤ m * m)%nat ∧
  (length (knowledge (add_knowledge o cell count ai)) ≤ m + m * m)%nat.
Proof.
  exact (pool_growth_bound canonical (0, 1) 1
           (add_knowledge canonical (0, 0) 0 (init 2 3)) canonical_valid).
Defined.

(** ** [Minesweeper.won] on a new game *)

(** X15.  A game that [Minesweeper(height, width, mines)] has just
    returned is won exactly when it was asked for no mines: [mines_found]
    starts empty and the mine set holds [mines] cells. *)
Theorem won_new_game (height width mines : Z)
    (draws : list (nat * nat)) (g : Minesweeper.t) :
  Minesweeper.init height width mines draws = Minesweeper.Returns g →
  Minesweeper.won g = true ↔ mines = 0.
Proof.
  unfold Minesweeper.init. intros Hret.
  pose proof (place_mines_spec mines draws _ (consistent_empty height width)) as Hspec.
  rewrite Hret in Hspec. simpl in Hspec.
  destruct Hspec as (_ & _ & _ & Hf & _ & Hlen).
  unfold Minesweeper.won. rewrite bool_decide_eq_true, Hf. unfold len in Hlen.
  split.
  - intros Heq. rewrite <- Heq, size_empty in Hlen. lia.
  - intros ->. symmetry. apply leibniz_equiv, size_empty_inv. lia.
Qed.

Lemma won_new_game_witness :
  let g := Minesweeper.Make 2 3 {[ (0, 1); (1, 1) ]}
             [[false; true; false]; [false; true; false]] ∅ in
  Minesweeper.won g = true ↔ 2 = 0.
Proof.
  apply (won_new_game 2 3 2 [(4, 4); (1, 1); (3, 5)]%nat).
  vm_compute. reflexivity.
Defined.

(** * One pass of subset inference, visit by visit *)

(** ** The order of the visits *)

Lemma foldl_bind {A B C} (f : A → C → A) (g : B → list C) (l : list B) (a : A) :
  foldl f a (l ≫= g) = foldl (λ a x, foldl f a (g x)) a l.
Proof.
  revert a. induction l as [|x l IH]; intros a; [done|].
  rewrite bind_cons, foldl_app. simpl. apply IH.
Qed.

Lemma foldl_pointwise {A B} (f g : A → B → A) (l : list B) (a : A) :
  (∀ a x, f a x = g a x) → foldl f a l = foldl g a l.
Proof.
  intros Heq. revert a. induction l as [|x l IH]; intros a; [done|].
  simpl. by rewrite Heq, IH.
Qed.

Lemma length_visits (n : nat) : length (visits n) = (n * n)%nat.
Proof.
  unfold visits.
  assert (H : ∀ (l l' : list nat),
    length (l ≫= λ i, (λ j, (i, j)) <$> l') = (length l * length l')%nat).
  { intros l l'. induction l as [|x l IH]; [done|].
    rewrite bind_cons, length_app, length_fmap, IH. simpl. lia. }
  by rewrite H, length_seq.
Qed.

Lemma elem_of_visits (n i j : nat) : (i, j) ∈ visits n ↔ (i < n ∧ j < n)%nat.
Proof.
  unfold visits. rewrite list_elem_of_bind.
  setoid_rewrite list_elem_of_fmap. setoid_rewrite elem_of_seq.
  split.
  - intros (i' & (j' & Heq & Hj) & Hi). inversion Heq; subst. lia.
  - intros [Hi Hj]. exists i. split; [exists j; split; [done | lia] | lia].
Qed.

(** The visits go row by row: the pair [(i, j)] is visit number
    [i * n + j]. *)
Lemma lookup_visits (n i j : nat) :
  (i < n)%nat → (j < n)%nat → visits n !! (i * n + j)%nat = Some (i, j).
Proof.
  unfold visits. intros Hi Hj.
  assert (H : ∀ (m start i : nat), (i < m)%nat →
    (seq start m ≫= λ i, (λ j, (i, j)) <$> seq 0 n) !! (i * n + j)%nat
    = Some ((start + i)%nat, j)).
  { clear i Hi. induction m as [|m IH]; intros start i Hi; [lia|].
    simpl seq. rewrite bind_cons. destruct i as [|i].
    - rewrite lookup_app_l by (rewrite length_fmap, length_seq; simpl; lia).
      rewrite list_lookup_fmap. simpl. rewrite lookup_seq_lt by done. simpl.
      by rewrite Nat.add_0_r.
    - rewrite lookup_app_r by (rewrite length_fmap, length_seq; simpl; lia).
      rewrite length_fmap, length_seq.
      replace (S i * n + j - n)%nat with (i * n + j)%nat by (simpl; lia).
      rewrite IH by lia. do 2 f_equal. lia. }
  by rewrite H.
Qed.

Section Visits.
Implicit Types (o : Order) (ai : AI) (st : AI * list Sentence) (K : list Sentence).

(** The double loop of lines 240-253 is a single loop over [visits]. *)
Lemma subset_pass_visits o ai :
  subset_pass o ai =
  foldl (λ st p, pair_step o p.1 p.2 st) (ai, []) (visits (length (knowledge ai))).
Proof.
  unfold subset_pass, visits. cbv zeta. rewrite foldl_bind.
  apply foldl_pointwise. intros st i. by rewrite foldl_fmap.
Qed.

Lemma pass_upto_S o ai (k i j : nat) :
  visits (length (knowledge ai)) !! k = Some (i, j) →
  pass_upto o ai (S k) = pair_step o i j (pass_upto o ai k).
Proof.
  intros Hk. unfold pass_upto. rewrite (take_S_r _ _ _ Hk), foldl_app. done.
Qed.

Lemma pass_upto_all o ai :
  pass_upto o ai (length (knowledge ai) * length (knowledge ai)) = subset_pass o ai.
Proof.
  unfold pass_upto. rewrite take_ge by (by rewrite length_visits).
  by rewrite subset_pass_visits.
Qed.

Lemma pass_upto_rest o ai (k : nat) :
  subset_pass o ai =
  foldl (λ st p, pair_step o p.1 p.2 st) (pass_upto o ai k)
        (drop k (visits (length (knowledge ai)))).
Proof.
  unfold pass_upto. rewrite <- foldl_app, take_drop. apply subset_pass_visits.
Qed.

(** ** What one visit does *)

(** Lines 241-253 for the positions [i] and [j], with [A] and [B] the
    sentences that stand there. *)
Lemma pair_step_visit o (i j : nat) st (A B : Sentence) :
  knowledge st.1 !! i = Some A → knowledge st.1 !! j = Some B →
  (A ≠ B ∧ Sentence.cells A ⊂ Sentence.cells B →
   pair_step o i j st =
     (derived_marks (iter_cells o (AtPair i j) (Sentence.cells (derived A B)))
                    (derived A B) st.1,
      st.2 ++ [derived A B])) ∧
  (¬ (A ≠ B ∧ Sentence.cells A ⊂ Sentence.cells B) → pair_step o i j st = st).
Proof.
  destruct st as [ai new]. simpl. intros Hi Hj. unfold pair_step. rewrite Hi, Hj.
  destruct (decide (A = B)) as [Heq|Hne]; [split; [by intros [? _] | done]|].
  destruct (decide (Sentence.cells A ⊂ Sentence.cells B)) as [Hsub|Hnsub].
  - split; [done | intros Hn; by destruct Hn].
  - split; [by intros [_ ?] | done].
Qed.

(** ** Sentences only lose cells *)

Lemma shrunk_refl K : shrunk K K.
Proof.
  split; [done|]. intros i s s' Hs Hs'. rewrite Hs in Hs'. by inversion Hs'.
Qed.

Lemma shrunk_trans K1 K2 K3 : shrunk K1 K2 → shrunk K2 K3 → shrunk K1 K3.
Proof.
  intros [Hl1 H1] [Hl2 H2]. split; [congruence|].
  intros i s s' Hs Hs'.
  destruct (lookup_lt_is_Some_2 K2 i) as [s2 Hs2].
  { rewrite Hl1. by apply lookup_lt_Some in Hs. }
  destruct (H1 i s s2 Hs Hs2) as [Ha Hb].
  destruct (H2 i s2 s' Hs2 Hs') as [Hc Hd].
  split; [set_solver | auto].
Qed.

Lemma shrunk_fmap K (f : Sentence → Sentence) :
  (∀ s, Sentence.cells (f s) ⊆ Sentence.cells s ∧
        (Sentence.cells s ≠ ∅ → Sentence.cells (f s) ≠ ∅)) →
  shrunk K (f <$> K).
Proof.
  intros Hf. split; [by rewrite length_fmap|].
  intros i s s' Hs Hs'. rewrite list_lookup_fmap, Hs in Hs'.
  inversion Hs'; subst. apply Hf.
Qed.

Lemma shrunk_mark_safe (c : Cell) ai : shrunk (knowledge ai) (knowledge (mark_safe c ai)).
Proof.
  apply shrunk_fmap. intros s. destruct (mark_safe_cells c s) as (? & _ & ?). done.
Qed.

Lemma shrunk_mark_mine (c : Cell) ai : shrunk (knowledge ai) (knowledge (mark_mine c ai)).
Proof.
  apply shrunk_fmap. intros s. destruct (mark_mine_cells c s) as (? & _ & ?). done.
Qed.

Lemma shrunk_mark_all_safe (cs : list Cell) ai :
  shrunk (knowledge ai) (knowledge (mark_all_safe cs ai)).
Proof.
  unfold mark_all_safe.
  apply (foldl_invariant (λ a, shrunk (knowledge ai) (knowledge a))); [apply shrunk_refl|].
  intros a c _ Ha. eapply shrunk_trans; [exact Ha | apply shrunk_mark_safe].
Qed.

Lemma shrunk_mark_all_mine (cs : list Cell) ai :
  shrunk (knowledge ai) (knowledge (mark_all_mine cs ai)).
Proof.
  unfold mark_all_mine.
  apply (foldl_invariant (λ a, shrunk (knowledge ai) (knowledge a))); [apply shrunk_refl|].
  intros a c _ Ha. eapply shrunk_trans; [exact Ha | apply shrunk_mark_mine].
Qed.

Lemma shrunk_derived_marks (cs : list Cell) (s : Sentence) ai :
  shrunk (knowledge ai) (knowledge (derived_marks cs s ai)).
Proof.
  unfold derived_marks.
  repeat case_decide;
    first [ apply shrunk_refl | apply shrunk_mark_all_safe | apply shrunk_mark_all_mine
          | eapply shrunk_trans; [apply shrunk_mark_all_safe | apply shrunk_mark_all_mine] ].
Qed.

Lemma shrunk_pair_step o (i j : nat) st :
  shrunk (knowledge st.1) (knowledge (pair_step o i j st).1) ∧
  st.2 `prefix_of` (pair_step o i j st).2.
Proof.
  destruct st as [ai new].
  destruct (pair_step_cases o i j ai new)
    as [-> | (sen & sentence & _ & _ & _ & _ & ->)]; simpl.
  - split; [apply shrunk_refl | done].
  - split; [apply shrunk_derived_marks | by apply prefix_app_r].
Qed.

Lemma shrunk_visits o (l : list (nat * nat)) st :
  shrunk (knowledge st.1)
         (knowledge (foldl (λ st p, pair_step o p.1 p.2 st) st l).1) ∧
  st.2 `prefix_of` (foldl (λ st p, pair_step o p.1 p.2 st) st l).2.
Proof.
  apply (foldl_invariant
    (λ st', shrunk (knowledge st.1) (knowledge st'.1) ∧ st.2 `prefix_of` st'.2)).
  - split; [apply shrunk_refl | done].
  - intros st' p _ [Hs Hp].
    destruct (shrunk_pair_step o p.1 p.2 st') as [Hs' Hp'].
    split; [by eapply shrunk_trans | by etrans].
Qed.

(** All along the pass the pool keeps its length, and its sentences
    only lose cells; the final pool is in turn shrunk from every
    intermediate one, and [new_knowledge] is only extended. *)
Lemma pass_upto_shrunk o ai (k : nat) :
  shrunk (knowledge ai) (knowledge (pass_upto o ai k).1) ∧
  shrunk (knowledge (pass_upto o ai k).1) (knowledge (subset_pass o ai).1) ∧
  (pass_upto o ai k).2 `prefix_of` (subset_pass o ai).2.
Proof.
  split.
  - unfold pass_upto.
    apply (shrunk_visits o (take k (visits (length (knowledge ai)))) (ai, [])).
  - rewrite (pass_upto_rest o ai k). apply shrunk_visits.
Qed.

End Visits.

(** ** The pass as a sequence of visits *)

Section PassVisits.
Implicit Types (o : Order) (ai : AI).

Lemma pass_upto_length o ai (k : nat) :
  length (knowledge (pass_upto o ai k).1) = length (knowledge ai).
Proof. by destruct (pass_upto_shrunk o ai k) as ([? _] & _). Qed.

(** Visit number [k], to the positions [i] and [j]: the sentences [A]
    and [B] that stand there at that moment are compared; when they
    differ and the cells of [A] are strictly among those of [B], the
    sentence [derived A B] is appended to [new_knowledge] and its marks
    are applied; otherwise nothing changes. *)
Lemma pass_upto_visit o ai (k i j : nat) :
  visits (length (knowledge ai)) !! k = Some (i, j) →
  ∃ A B,
    knowledge (pass_upto o ai k).1 !! i = Some A ∧
    knowledge (pass_upto o ai k).1 !! j = Some B ∧
    (A ≠ B ∧ Sentence.cells A ⊂ Sentence.cells B →
       (pass_upto o ai (S k)).2 = (pass_upto o ai k).2 ++ [derived A B] ∧
       (pass_upto o ai (S k)).1 =
         derived_marks (iter_cells o (AtPair i j) (Sentence.cells (derived A B)))
                       (derived A B) (pass_upto o ai k).1) ∧
    (¬ (A ≠ B ∧ Sentence.cells A ⊂ Sentence.cells B) →
       pass_upto o ai (S k) = pass_upto o ai k).
Proof.
  intros Hk. pose proof (list_elem_of_lookup_2 _ _ _ Hk) as Hin.
  apply elem_of_visits in Hin as [Hi Hj].
  destruct (lookup_lt_is_Some_2 (knowledge (pass_upto o ai k).1) i) as [A HA];
    [by rewrite pass_upto_length|].
  destruct (lookup_lt_is_Some_2 (knowledge (pass_upto o ai k).1) j) as [B HB];
    [by rewrite pass_upto_length|].
  exists A, B. rewrite (pass_upto_S o ai k i j Hk).
  destruct (pair_step_visit o i j (pass_upto o ai k) A B HA HB) as [Hyes Hno].
  split_and!; [done | done | | done].
  intros Hc. by rewrite (Hyes Hc).
Qed.

(** Every sentence of [new_knowledge] was derived at some visit. *)
Lemma pass_upto_derived o ai (k : nat) (s : Sentence) :
  s ∈ (pass_upto o ai k).2 →
  ∃ (k' i j : nat) A B,
    visits (length (knowledge ai)) !! k' = Some (i, j) ∧
    knowledge (pass_upto o ai k').1 !! i = Some A ∧
    knowledge (pass_upto o ai k').1 !! j = Some B ∧
    A ≠ B ∧ Sentence.cells A ⊂ Sentence.cells B ∧ s = derived A B.
Proof.
  induction k as [|k IH]; intros Hs.
  { unfold pass_upto in Hs. simpl in Hs. by apply elem_of_nil in Hs. }
  destruct (visits (length (knowledge ai)) !! k) as [[i j]|] eqn:Hk.
  - destruct (pass_upto_visit o ai k i j Hk) as (A & B & HA & HB & Hyes & Hno).
    destruct (decide (A ≠ B ∧ Sentence.cells A ⊂ Sentence.cells B)) as [Hc|Hc].
    + destruct (Hyes Hc) as [Hnew _]. rewrite Hnew in Hs.
      apply elem_of_app in Hs as [Hs|Hs]; [by apply IH|].
      apply list_elem_of_singleton in Hs. destruct Hc as [Hne Hsub].
      by exists k, i, j, A, B.
    + rewrite (Hno Hc) in Hs. by apply IH.
  - apply IH. unfold pass_upto in *. apply lookup_ge_None in Hk.
    rewrite take_ge in Hs by lia. by rewrite take_ge by lia.
Qed.

(** A pair of positions whose cells the pass leaves as they were has
    its difference derived. *)
Lemma untouched_pair_derived o ai (i j : nat) (A B : Sentence) :
  knowledge ai !! i = Some A → knowledge ai !! j = Some B →
  Sentence.cells A ⊂ Sentence.cells B →
  Sentence.cells <$> knowledge (subset_pass o ai).1 !! i = Some (Sentence.cells A) →
  Sentence.cells <$> knowledge (subset_pass o ai).1 !! j = Some (Sentence.cells B) →
  has_cells (Sentence.cells B ∖ Sentence.cells A) (subset_pass o ai).2.
Proof.
  intros HA HB Hsub HA' HB'.
  apply fmap_Some in HA' as (A' & HA' & HcA').
  apply fmap_Some in HB' as (B' & HB' & HcB').
  set (n := length (knowledge ai)).
  assert (Hk : visits n !! (i * n + j)%nat = Some (i, j)).
  { apply lookup_visits; unfold n; by eapply lookup_lt_Some. }
  destruct (pass_upto_visit o ai _ i j Hk) as (Ak & Bk & HAk & HBk & Hyes & _).
  destruct (pass_upto_shrunk o ai (i * n + j)) as ([_ Hpre] & [_ Hpost] & _).
  pose proof (pass_upto_shrunk o ai (S (i * n + j))) as (_ & _ & Hprefix).
  destruct (Hpre i A Ak HA HAk) as [HA1 _]. destruct (Hpost i Ak A' HAk HA') as [HA2 _].
  destruct (Hpre j B Bk HB HBk) as [HB1 _]. destruct (Hpost j Bk B' HBk HB') as [HB2 _].
  assert (HcA : Sentence.cells Ak = Sentence.cells A) by set_solver.
  assert (HcB : Sentence.cells Bk = Sentence.cells B) by set_solver.
  destruct Hyes as [Hnew _].
  { rewrite HcA, HcB. split; [|done]. intros ->. rewrite HcB in HcA.
    rewrite HcA in Hsub. by destruct Hsub as [_ []]. }
  exists (derived Ak Bk). split.
  - eapply elem_of_prefix; [|exact Hprefix].
    rewrite Hnew. apply elem_of_app. right. by apply list_elem_of_singleton.
  - simpl. by rewrite HcA, HcB.
Qed.

End PassVisits.

(** C3, as the claim states it, fails: [add_knowledge] makes one pass of
    subset inference and stops, and the sentences derived in the pass
    are not paired in their turn.  On a 2x3 grid, after [(0,0)] was
    observed with count 0 and [(0,1)] with count 1, the pool holds
    [{(1,0)} = 0] and [{(0,2), (1,0), (1,1), (1,2)} = 1] but not the
    sentence [{(0,2), (1,1), (1,2)} = 1] they yield. *)
Lemma no_fixed_point_on_return :
  let ai := add_knowledge canonical (0, 1) 1
              (add_knowledge canonical (0, 0) 0 (init 2 3)) in
  let A := Sentence.Make {[ (1, 0) ]} 0 in
  let B := Sentence.Make {[ (0, 2); (1, 0); (1, 1); (1, 2) ]} 1 in
  A ∈ knowledge ai ∧ B ∈ knowledge ai ∧
  A ≠ B ∧ Sentence.cells A ⊂ Sentence.cells B ∧
  derived A B = Sentence.Make {[ (0, 2); (1, 1); (1, 2) ]} 1 ∧
  (derived A B ∉ knowledge ai) ∧
  ¬ subset_closed ai ∧ ¬ fixed_point ai.
Proof.
  cbv zeta. unfold fixed_point. split_and!; try compute_done.
Qed.

(** C3, amended.  When [add_knowledge(cell, count)] returns, subset
    inference has been run as exactly one pass, not to a fixed point.
    With [n] the length of the pool before the pass, the pass is the
    sequence of the [n * n] visits to the ordered pairs of positions
    [(i, j)], row by row.  A visit compares the sentences [A] and [B]
    that stand at [i] and [j] at that moment: when they differ and the
    cells of [A] are strictly among those of [B], it derives
    [(B.cells - A.cells, B.count - A.count)] and applies direct inference
    to it at once; otherwise it does nothing.  The pool keeps its length
    all along, its sentences only lose cells, and the derived sentences
    are not paired in their turn.  Every derived sentence comes from
    such a visit, has at least one cell, has had direct inference
    applied (with count 0 its cells are in [safes]; with a count equal
    to the number of its cells they are in [mines]) and is represented
    in the returned pool by a sentence with the same cells.  For
    positions [i] and [j] whose cells the pass left as they were, with
    the cells at [i] strictly among those at [j], the difference is
    represented in the returned pool.  Direct inference has also been
    applied to the sentence of the observation itself.  The returned
    pool has no set of cells beyond those of the pool as the pass left
    it and those of the derived sentences, and the pass derives at least
    one sentence when the pool it starts from holds distinct sentences
    [A] and [B] with the cells of [A] strictly among those of [B]. *)
Theorem one_pass_of_subset_inference (o : Order) (cell : Cell) (count : Z) (ai : AI) :
  valid_order o →
  let pre := before_subset_pass o cell count ai in
  let n := length (knowledge pre) in
  let pass := subset_pass o pre in
  let final := add_knowledge o cell count ai in
  (pass_upto o pre 0 = (pre, []) ∧
   pass_upto o pre (n * n) = pass ∧
   ∀ i j : nat, (i < n)%nat → (j < n)%nat →
     visits n !! (i * n + j)%nat = Some (i, j)) ∧
  (∀ k i j : nat, visits n !! k = Some (i, j) →
     ∃ A B,
       knowledge (pass_upto o pre k).1 !! i = Some A ∧
       knowledge (pass_upto o pre k).1 !! j = Some B ∧
       (A ≠ B ∧ Sentence.cells A ⊂ Sentence.cells B →
          (pass_upto o pre (S k)).2 = (pass_upto o pre k).2 ++ [derived A B] ∧
          (pass_upto o pre (S k)).1 =
            derived_marks
              (iter_cells o (AtPair i j) (Sentence.cells (derived A B)))
              (derived A B) (pass_upto o pre k).1) ∧
       (¬ (A ≠ B ∧ Sentence.cells A ⊂ Sentence.cells B) →
          pass_upto o pre (S k) = pass_upto o pre k)) ∧
  (∀ k : nat,
     shrunk (knowledge pre) (knowledge (pass_upto o pre k).1) ∧
     shrunk (knowledge (pass_upto o pre k).1) (knowledge pass.1)) ∧
  (∀ s, s ∈ pass.2 →
     (∃ (k i j : nat) A B,
        visits n !! k = Some (i, j) ∧
        knowledge (pass_upto o pre k).1 !! i = Some A ∧
        knowledge (pass_upto o pre k).1 !! j = Some B ∧
        A ≠ B ∧ Sentence.cells A ⊂ Sentence.cells B ∧ s = derived A B) ∧
     Sentence.cells s ≠ ∅ ∧
     (Sentence.count s = 0 → Sentence.cells s ⊆ safes final) ∧
     (Sentence.count s = len (Sentence.cells s) → Sentence.cells s ⊆ mines final) ∧
     has_cells (Sentence.cells s) (knowledge final)) ∧
  (∀ (i j : nat) (A B : Sentence),
     knowledge pre !! i = Some A → knowledge pre !! j = Some B →
     Sentence.cells A ⊂ Sentence.cells B →
     Sentence.cells <$> knowledge pass.1 !! i = Some (Sentence.cells A) →
     Sentence.cells <$> knowledge pass.1 !! j = Some (Sentence.cells B) →
     has_cells (Sentence.cells B ∖ Sentence.cells A) pass.2 ∧
     has_cells (Sentence.cells B ∖ Sentence.cells A) (knowledge final)) ∧
  (count = 0 → neighbor_cells ai cell ⊆ safes final) ∧
  (count = len (neighbor_cells ai cell) → neighbor_cells ai cell ⊆ mines final) ∧
  (∀ X, has_cells X (knowledge final)
        ↔ has_cells X (knowledge pass.1) ∨ has_cells X pass.2) ∧
  (∀ (i j : nat) (A B : Sentence),
     knowledge pre !! i = Some A → knowledge pre !! j = Some B →
     A ≠ B → Sentence.cells A ⊂ Sentence.cells B → pass.2 ≠ []).
Proof.
  intros Hv. cbv zeta.
  destruct (observation_marks o cell count ai Hv) as (_ & _ & Hzero & Hfull).
  set (pre := before_subset_pass o cell count ai).
  assert (Hfinal : add_knowledge o cell count ai =
    reduce o (set_knowledge (knowledge (subset_pass o pre).1 ++ (subset_pass o pre).2)
                            (subset_pass o pre).1)).
  { by rewrite add_knowledge_unfold, before_reduce_unfold, infer_subsets_eq. }
  assert (Hsafes : safes (add_knowledge o cell count ai) = safes (subset_pass o pre).1)
    by (by rewrite Hfinal).
  assert (Hmines : mines (add_knowledge o cell count ai) = mines (subset_pass o pre).1)
    by (by rewrite Hfinal).
  assert (Hcells : ∀ X,
    has_cells X (knowledge (add_knowledge o cell count ai))
    ↔ has_cells X (knowledge (subset_pass o pre).1) ∨ has_cells X (subset_pass o pre).2).
  { intros X. rewrite Hfinal, reduce_has_cells by done. simpl. unfold has_cells.
    setoid_rewrite elem_of_app. naive_solver. }
  split_and!; [done | apply pass_upto_all | apply lookup_visits | | | | |
               exact Hzero | exact Hfull | exact Hcells |].
  - intros k i j. apply pass_upto_visit.
  - intros k. destruct (pass_upto_shrunk o pre k) as (? & ? & _). by split.
  - intros s Hs. destruct (subset_pass_marks o pre Hv s Hs) as (Hne & Hz & Hf).
    rewrite Hsafes, Hmines.
    split_and!; [| done.. |].
    + apply (pass_upto_derived o pre
               (length (knowledge pre) * length (knowledge pre))).
      by rewrite pass_upto_all.
    + apply Hcells. right. by exists s.
  - intros i j A B HA HB Hsub HA' HB'.
    pose proof (untouched_pair_derived o pre i j A B HA HB Hsub HA' HB') as Hd.
    split; [done|]. apply Hcells. by right.
  - intros i j A B. apply subset_pass_derives.
Qed.

Lemma one_pass_of_subset_inference_witness :
  let o := canonical in
  let cell : Cell := (0, 1) in
  let count : Z := 1 in
  let ai := add_knowledge canonical (0, 0) 0 (init 2 3) in
  let pre := before_subset_pass o cell count ai in
  let n := length (knowledge pre) in
  let pass := subset_pass o pre in
  let final := add_knowledge o cell count ai in
  (pass_upto o pre 0 = (pre, []) ∧
   pass_upto o pre (n * n) = pass ∧
   ∀ i j : nat, (i < n)%nat → (j < n)%nat →
     visits n !! (i * n + j)%nat = Some (i, j)) ∧
  (∀ k i j : nat, visits n !! k = Some (i, j) →
     ∃ A B,
       knowledge (pass_upto o pre k).1 !! i = Some A ∧
       knowledge (pass_upto o pre k).1 !! j = Some B ∧
       (A ≠ B ∧ Sentence.cells A ⊂ Sentence.cells B →
          (pass_upto o pre (S k)).2 = (pass_upto o pre k).2 ++ [derived A B] ∧
          (pass_upto o pre (S k)).1 =
            derived_marks
              (iter_cells o (AtPair i j) (Sentence.cells (derived A B)))
              (derived A B) (pass_upto o pre k).1) ∧
       (¬ (A ≠ B ∧ Sentence.cells A ⊂ Sentence.cells B) →
          pass_upto o pre (S k) = pass_upto o pre k)) ∧
  (∀ k : nat,
     shrunk (knowledge pre) (knowledge (pass_upto o pre k).1) ∧
     shrunk (knowledge (pass_upto o pre k).1) (knowledge pass.1)) ∧
  (∀ s, s ∈ pass.2 →
     (∃ (k i j : nat) A B,
        visits n !! k = Some (i, j) ∧
        knowledge (pass_upto o pre k).1 !! i = Some A ∧
        knowledge (pass_upto o pre k).1 !! j = Some B ∧
        A ≠ B ∧ Sentence.cells A ⊂ Sentence.cells B ∧ s = derived A B) ∧
     Sentence.cells s ≠ ∅ ∧
     (Sentence.count s = 0 → Sentence.cells s ⊆ safes final) ∧
     (Sentence.count s = len (Sentence.cells s) → Sentence.cells s ⊆ mines final) ∧
     has_cells (Sentence.cells s) (knowledge final)) ∧
  (∀ (i j : nat) (A B : Sentence),
     knowledge pre !! i = Some A → knowledge pre !! j = Some B →
     Sentence.cells A ⊂ Sentence.cells B →
     Sentence.cells <$> knowledge pass.1 !! i = Some (Sentence.cells A) →
     Sentence.cells <$> knowledge pass.1 !! j = Some (Sentence.cells B) →
     has_cells (Sentence.cells B ∖ Sentence.cells A) pass.2 ∧
     has_cells (Sentence.cells B ∖ Sentence.cells A) (knowledge final)) ∧
  (count = 0 → neighbor_cells ai cell ⊆ safes final) ∧
  (count = len (neighbor_cells ai cell) → neighbor_cells ai cell ⊆ mines final) ∧
  (∀ X, has_cells X (knowledge final)
        ↔ has_cells X (knowledge pass.1) ∨ has_cells X pass.2) ∧
  (∀ (i j : nat) (A B : Sentence),
     knowledge pre !! i = Some A → knowledge pre !! j = Some B →
     A ≠ B → Sentence.cells A ⊂ Sentence.cells B → pass.2 ≠ []).
Proof.
  exact (one_pass_of_subset_inference canonical (0, 1) 1
           (add_knowledge canonical (0, 0) 0 (init 2 3)) canonical_valid).
Defined.

(** On the 2x3 grid of the run above the pass has six sentences to
    pair, leaves them as they are, and derives three: the sentence of
    the neighbours of [(0,1)] less each of the three cells known safe. *)
Lemma sample_pass_derives_three :
  let pre := before_subset_pass canonical (0, 1) 1
               (add_knowledge canonical (0, 0) 0 (init 2 3)) in
  length (knowledge pre) = 6%nat ∧
  knowledge (subset_pass canonical pre).1 = knowledge pre ∧
  (subset_pass canonical pre).2 =
    [ Sentence.Make {[ (0, 2); (1, 0); (1, 1); (1, 2) ]} 1;
      Sentence.Make {[ (0, 0); (0, 2); (1, 1); (1, 2) ]} 1;
      Sentence.Make {[ (0, 0); (0, 2); (1, 0); (1, 2) ]} 1 ].
Proof. cbv zeta. split_and!; compute_done. Qed.

(** * Sentences with no cells *)

Section NoCells.
Implicit Types (o : Order) (ai : AI) (K : list Sentence).

Lemma shrunk_no_empty K K' : shrunk K K' → ¬ has_cells ∅ K → ¬ has_cells ∅ K'.
Proof.
  intros [Hl H] Hne (s' & Hs' & Hc). apply list_elem_of_lookup_1 in Hs' as [i Hi].
  destruct (lookup_lt_is_Some_2 K i) as [s Hs].
  { rewrite <- Hl. by eapply lookup_lt_Some. }
  destruct (H i s s' Hs Hi) as [_ Hn]. apply Hn; [|done].
  intros Hc'. apply Hne. exists s. split; [by eapply list_elem_of_lookup_2 | done].
Qed.

Lemma has_cells_or_not (X : gset Cell) K : has_cells X K ∨ ¬ has_cells X K.
Proof.
  destruct (decide (X ∈ Sentence.cells <$> K)) as [Hin|Hout].
  - left. apply list_elem_of_fmap in Hin as (s & -> & Hs). by exists s.
  - right. intros (s & Hs & <-). apply Hout. by apply list_elem_of_fmap_2.
Qed.

Lemma no_empty_app K K' :
  ¬ has_cells ∅ K → ¬ has_cells ∅ K' → ¬ has_cells ∅ (K ++ K').
Proof.
  intros H1 H2 (s & Hs & Hc). apply elem_of_app in Hs as [Hs|Hs].
  - apply H1. by exists s.
  - apply H2. by exists s.
Qed.

Lemma no_empty_singletons (cs : list Cell) (n : Z) :
  ¬ has_cells ∅ ((λ cell, Sentence.Make {[ cell ]} n) <$> cs).
Proof.
  intros (s & Hs & Hc). apply list_elem_of_fmap in Hs as (c & -> & _).
  simpl in Hc. set_solver.
Qed.

(** Lines 199-205 *)
Lemma no_empty_record_move (cell : Cell) ai :
  ¬ has_cells ∅ (knowledge ai) → ¬ has_cells ∅ (knowledge (record_move cell ai)).
Proof.
  intros Hne. unfold record_move. cbv zeta.
  eapply shrunk_no_empty; [apply shrunk_mark_safe|]. simpl.
  apply no_empty_app; [done|].
  intros (s & Hs & Hc). apply list_elem_of_singleton in Hs as ->.
  simpl in Hc. set_solver.
Qed.

(** Lines 219-234 *)
Lemma no_empty_direct_marks o (N : gset Cell) (count : Z) ai :
  ¬ has_cells ∅ (knowledge ai) → ¬ has_cells ∅ (knowledge (direct_marks o N count ai)).
Proof.
  intros Hne. rewrite direct_marks_eq. cbv zeta.
  repeat case_decide; simpl; try done.
  - apply no_empty_app; [|apply no_empty_singletons].
    eapply shrunk_no_empty; [apply shrunk_mark_all_safe | done].
  - apply no_empty_app; [|apply no_empty_singletons].
    eapply shrunk_no_empty; [apply shrunk_mark_all_mine | done].
Qed.

(** Lines 238-255 *)
Lemma no_empty_infer_subsets o ai :
  valid_order o →
  ¬ has_cells ∅ (knowledge ai) → ¬ has_cells ∅ (knowledge (infer_subsets o ai)).
Proof.
  intros Hv Hne. rewrite infer_subsets_eq. simpl. apply no_empty_app.
  - destruct (pass_upto_shrunk o ai 0) as (_ & Hs & _).
    eapply shrunk_no_empty; [exact Hs | done].
  - intros (s & Hs & Hc). by destruct (subset_pass_marks o ai Hv s Hs) as [Hn _].
Qed.

(** A call whose cell has a neighbour on the grid brings no sentence
    without cells into the pool. *)
Lemma no_empty_add_knowledge o (cell : Cell) (count : Z) ai :
  valid_order o → neighbor_cells ai cell ≠ ∅ →
  ¬ has_cells ∅ (knowledge ai) →
  ¬ has_cells ∅ (knowledge (add_knowledge o cell count ai)).
Proof.
  intros Hv HN Hne (s & Hs & Hc).
  rewrite add_knowledge_unfold, before_reduce_unfold in Hs.
  apply (reduce_subseteq o _ Hv) in Hs.
  apply (no_empty_infer_subsets o (before_subset_pass o cell count ai) Hv); [|by exists s].
  unfold before_subset_pass. apply no_empty_direct_marks.
  unfold after_observation_sentence. simpl. apply no_empty_app.
  - apply (no_empty_record_move cell ai Hne).
  - intros (s' & Hs' & Hc'). apply list_elem_of_singleton in Hs' as ->. done.
Qed.

(** A sentence without cells stays in the pool. *)
Lemma empty_kept_add_knowledge o (cell : Cell) (count : Z) ai :
  valid_order o →
  has_cells ∅ (knowledge ai) → has_cells ∅ (knowledge (add_knowledge o cell count ai)).
Proof.
  intros Hv (s & Hs & Hc).
  apply has_cells_add_knowledge; [done | apply stable_empty |].
  unfold after_observation_sentence. simpl. apply has_cells_app_l.
  exists (Sentence.mark_safe cell s). split.
  - rewrite fmap_app. apply elem_of_app. left. by apply list_elem_of_fmap_2.
  - by apply mark_safe_stable; [apply stable_empty|].
Qed.

(** On a grid with more than one cell every cell of the grid has a
    neighbour on the grid. *)
Lemma neighbor_cells_nonempty ai (cell : Cell) :
  on_grid ai cell → 2 ≤ height ai ∨ 2 ≤ width ai → neighbor_cells ai cell ≠ ∅.
Proof.
  destruct cell as [r k]. intros [Hr Hk] Hdim. simpl in Hr, Hk.
  assert (∃ c, c ∈ neighbor_cells ai (r, k)) as [c Hc]; [|set_solver].
  destruct Hdim as [Hh|Hw].
  - destruct (decide (r + 1 < height ai)).
    + exists (r + 1, k). apply elem_of_neighbor_cells. unfold on_grid. simpl.
      split_and!; first [lia | intros Heq; inversion Heq; lia].
    + exists (r - 1, k). apply elem_of_neighbor_cells. unfold on_grid. simpl.
      split_and!; first [lia | intros Heq; inversion Heq; lia].
  - destruct (decide (k + 1 < width ai)).
    + exists (r, k + 1). apply elem_of_neighbor_cells. unfold on_grid. simpl.
      split_and!; first [lia | intros Heq; inversion Heq; lia].
    + exists (r, k - 1). apply elem_of_neighbor_cells. unfold on_grid. simpl.
      split_and!; first [lia | intros Heq; inversion Heq; lia].
Qed.

Lemma reachable_on_grid_dims (h w : Z) ai :
  reachable_on_grid h w ai → height ai = h ∧ width ai = w.
Proof.
  induction 1 as [|o cell count ai Hv _ [IHh IHw] _]; [done|].
  destruct (grows_add_knowledge o cell count ai) as (-> & -> & _). done.
Qed.

(** Observations of cells of a grid with more than one cell never leave
    a sentence without cells in the pool, whatever the counts. *)
Lemma reachable_on_grid_no_empty (h w : Z) ai :
  2 ≤ h ∨ 2 ≤ w → reachable_on_grid h w ai → ¬ has_cells ∅ (knowledge ai).
Proof.
  intros Hdim. induction 1 as [|o cell count ai Hv Hr IH Hon].
  - intros (s & Hs & _). simpl in Hs. by apply elem_of_nil in Hs.
  - apply no_empty_add_knowledge; [done | | done].
    apply neighbor_cells_nonempty; [done|].
    destruct (reachable_on_grid_dims h w ai Hr) as [-> ->]. done.
Qed.

End NoCells.

(** Two observations on the 2x3 grid, the second with a count no layout
    gives: the states are reached by observations of cells of the grid,
    and the pool holds no sentence without cells. *)
Lemma sample_reachable_on_grid :
  let ai := add_knowledge canonical (0, 1) 7
              (add_knowledge canonical (0, 0) 0 (init 2 3)) in
  reachable_on_grid 2 3 ai ∧ ¬ has_cells ∅ (knowledge ai).
Proof.
  cbv zeta.
  assert (H : reachable_on_grid 2 3
                (add_knowledge canonical (0, 1) 7
                   (add_knowledge canonical (0, 0) 0 (init 2 3)))).
  { apply on_grid_step; [apply canonical_valid | |].
    - apply on_grid_step; [apply canonical_valid | apply on_grid_init |].
      split; simpl; lia.
    - unfold on_grid.
      destruct (grows_add_knowledge canonical (0, 0) 0 (init 2 3)) as (-> & -> & _).
      simpl. lia. }
  split; [exact H|]. apply (reachable_on_grid_no_empty 2 3); [lia | exact H].
Qed.

(** C7, amended.  When [add_knowledge] returns, no two sentences of the
    pool have the same cells; the sets of cells found in the pool are
    exactly those found before the cleanup, each kept once.  The cleanup
    discards no sentence for having no cells, but a call brings none in
    either unless the observed cell has no neighbour on the grid: the
    returned pool holds a sentence with no cells exactly when the pool
    held one before the call or the observed cell has no neighbour on
    the grid.  A cell of a grid with more than one cell always has one;
    so after any sequence of observations of cells of such a grid,
    whatever the counts, the returned pool holds no sentence with no
    cells. *)
Theorem reduce_one_per_cell_set (o : Order) (cell : Cell) (count : Z) (ai : AI) :
  valid_order o →
  let final := add_knowledge o cell count ai in
  NoDup (Sentence.cells <$> knowledge final) ∧
  (∀ X, has_cells X (knowledge final)
        ↔ has_cells X (knowledge (before_reduce o cell count ai))) ∧
  (has_cells ∅ (knowledge final)
   ↔ has_cells ∅ (knowledge ai) ∨ neighbor_cells ai cell = ∅) ∧
  (on_grid ai cell → 2 ≤ height ai ∨ 2 ≤ width ai → neighbor_cells ai cell ≠ ∅) ∧
  (∀ h w : Z, reachable_on_grid h w ai → on_grid ai cell → 2 ≤ h ∨ 2 ≤ w →
     ∀ s, s ∈ knowledge final → Sentence.cells s ≠ ∅).
Proof.
  intros Hv. cbv zeta. split_and!.
  - rewrite add_knowledge_unfold. by apply reduce_NoDup.
  - intros X. rewrite add_knowledge_unfold. by apply reduce_has_cells.
  - split.
    + intros Hfinal.
      destruct (decide (neighbor_cells ai cell = ∅)) as [|HN]; [by right|]. left.
      destruct (has_cells_or_not ∅ (knowledge ai)) as [|Hne]; [done|].
      by destruct (no_empty_add_knowledge o cell count ai Hv HN Hne).
    + intros [Hold | Hempty]; [by apply empty_kept_add_knowledge|].
      apply has_cells_add_knowledge; [done | apply stable_empty |].
      rewrite <- Hempty. apply has_cells_observation_sentence.
  - apply neighbor_cells_nonempty.
  - intros h w Hr Hon Hdim s Hs Hc.
    apply (reachable_on_grid_no_empty h w (add_knowledge o cell count ai) Hdim).
    + by apply on_grid_step.
    + by exists s.
Qed.

Lemma reduce_one_per_cell_set_witness :
  let o := canonical in
  let cell : Cell := (0, 1) in
  let count : Z := 1 in
  let ai := add_knowledge canonical (0, 0) 0 (init 2 3) in
  let final := add_knowledge o cell count ai in
  NoDup (Sentence.cells <$> knowledge final) ∧
  (∀ X, has_cells X (knowledge final)
        ↔ has_cells X (knowledge (before_reduce o cell count ai))) ∧
  (has_cells ∅ (knowledge final)
   ↔ has_cells ∅ (knowledge ai) ∨ neighbor_cells ai cell = ∅) ∧
  (on_grid ai cell → 2 ≤ height ai ∨ 2 ≤ width ai → neighbor_cells ai cell ≠ ∅) ∧
  (∀ h w : Z, reachable_on_grid h w ai → on_grid ai cell → 2 ≤ h ∨ 2 ≤ w →
     ∀ s, s ∈ knowledge final → Sentence.cells s ≠ ∅).
Proof.
  exact (reduce_one_per_cell_set canonical (0, 1) 1
           (add_knowledge canonical (0, 0) 0 (init 2 3)) canonical_valid).
Defined.
